(** * UICP: streaming block extractor, definitions cache and component loader

    A shallow embedding of three pieces of the UICP packages:
    - [packages/parser/src/streaming-parser.ts]: [processStreamingContent],
      the character-level state machine that withholds [```uicp] blocks
      from the display text and returns the parsed blocks;
    - [packages/parser/src/definitions-loader.ts]: [loadDefinitionsWithCache];
    - [packages/parser/src/loader.ts]: the component registry and
      [loadComponent].

    JavaScript strings are sequences of UTF-16 code units; a code unit is
    modelled as a number in [N], a string as the list of its code units.
    Maps ([Map<string, ...>]) are [gmap]s. *)

From Stdlib Require Import ZArith NArith Ascii String DecimalString DecimalNat.
From stdpp Require Import gmap strings list fin_maps.

Set Warnings "-register-all".
Open Scope N_scope.

(** ** JavaScript strings *)

Definition char := N.
Definition jstring := list char.

Definition code (a : ascii) : char := N_of_ascii a.
Definition str (s : string) : jstring := map code (list_ascii_of_string s).

(** The double quote. *)
Definition quote : char := 34.

(** A literal in which each apostrophe stands for a double quote. *)
Definition quoted (s : string) : jstring :=
  map (fun c => if c =? code "'" then quote else c) (str s).

(** [s.startsWith(p)] *)
Fixpoint startsWith (s p : jstring) {struct p} : bool :=
  match p, s with
  | [], _ => true
  | _ :: _, [] => false
  | a :: p', b :: s' => (a =? b) && startsWith s' p'
  end.

(** [s.includes(p)] *)
Fixpoint includes (s p : jstring) : bool :=
  startsWith s p ||
  match s with
  | [] => false
  | _ :: s' => includes s' p
  end.

(** [s.endsWith(p)] *)
Definition endsWith (s p : jstring) : bool := startsWith (rev s) (rev p).

(** The code units that [String.prototype.trim] strips: WhiteSpace and
    LineTerminator of ECMA-262. *)
Definition isTrimSpace (c : char) : bool :=
  ((9 <=? c) && (c <=? 13)) || (c =? 32) || (c =? 160) || (c =? 5760)
  || ((8192 <=? c) && (c <=? 8202)) || (c =? 8232) || (c =? 8233)
  || (c =? 8239) || (c =? 8287) || (c =? 12288) || (c =? 65279).

Fixpoint trimStart (s : jstring) : jstring :=
  match s with
  | c :: s' => if isTrimSpace c then trimStart s' else s
  | [] => []
  end.

Definition trim (s : jstring) : jstring := rev (trimStart (rev (trimStart s))).

(** The decimal digits of a non-negative integer, as a template literal
    prints it. *)
Definition decimal (n : nat) : jstring :=
  str (NilEmpty.string_of_uint (Nat.to_uint n)).

(** ** JSON values *)

(** A JavaScript number that [JSON.parse] can return: the finite value
    [m * 10^e], or an infinity (a literal beyond the double range). *)
Inductive JsNumber :=
| Finite (m e : Z)
| Infinite (negative : bool).

Inductive JsValue :=
| JNull
| JBool (b : bool)
| JNum (n : JsNumber)
| JStr (s : jstring)
| JArr (items : list JsValue)
| JObj (fields : list (jstring * JsValue)).

(** The last binding of [key]: [JSON.parse] keeps the last of duplicate keys. *)
Fixpoint own_property (fields : list (jstring * JsValue)) (key : jstring)
  : option JsValue :=
  match fields with
  | [] => None
  | (k, v) :: rest =>
      match own_property rest key with
      | Some w => Some w
      | None => if decide (k = key) then Some v else None
      end
  end.

Inductive JsError := SyntaxError | TypeError.

(** [parsed.key] for a key that no built-in prototype defines (such as
    [uid] and [data]): [inr TypeError] when [parsed] is [null],
    [inl None] for [undefined]. *)
Definition member (parsed : JsValue) (key : jstring)
  : option JsValue + JsError :=
  match parsed with
  | JNull => inr TypeError
  | JObj fields => inl (own_property fields key)
  | _ => inl None
  end.

(** ToBoolean *)
Definition truthy (v : option JsValue) : bool :=
  match v with
  | None => false
  | Some JNull => false
  | Some (JBool b) => b
  | Some (JNum (Finite m _)) => negb (m =? 0)%Z
  | Some (JNum (Infinite _)) => true
  | Some (JStr s) => match s with [] => false | _ => true end
  | Some (JArr _) => true
  | Some (JObj _) => true
  end.

(** ** The streaming parser *)

Module StreamingParser.

Record StreamingParserState := {
  displayContent : jstring;
  hasPendingBlock : bool;
  isInUICPBlock : bool;
  completedBlocks : list JsValue;
  buffer : jstring
}.

Definition createStreamingParserState : StreamingParserState :=
  {| displayContent := [];
     hasPendingBlock := false;
     isInUICPBlock := false;
     completedBlocks := [];
     buffer := [] |}.

Inductive PatternStage :=
| none | backtick1 | backtick2 | backtick3
| u | ui | uic | uicp
| in_block | closing1 | closing2 | closing3.

Global Instance PatternStage_eq_dec : EqDecision PatternStage.
Proof. solve_decision. Defined.

(** What the parser writes to the console. *)
Inductive Diagnostic :=
| warn_invalid_block_structure (parsed : JsValue)
| error_failed_to_parse (e : JsError).

(** [InternalState], with the console output so far next to it. *)
Module I.
Record InternalState := mk {
  stage : PatternStage;
  buffer : jstring;
  displayContent : jstring;
  completedBlocks : list JsValue;
  blockContent : jstring;
  console : list Diagnostic
}.
End I.
Abbreviation InternalState := I.InternalState.

Definition tick : char := code "`".

Definition placeholder (n : nat) : jstring :=
  str "__UICP_BLOCK_" ++ decimal n ++ str "__".

(** [content.includes('`')] *)
Definition mightContainUICPBlock (content : jstring) : bool :=
  includes content [tick].

Section Parser.

(** [JSON.parse]: [None] when it throws a SyntaxError. *)
Variable JSON_parse : jstring -> option JsValue.

(** The outcome of the [try] block of stage [closing3]. *)
Inductive Verdict :=
| Accepted (parsed : JsValue)
| InvalidStructure (parsed : JsValue)
| Failed (e : JsError).

Definition inspect (blockContent : jstring) : Verdict :=
  let trimmedContent := trim blockContent in
  match JSON_parse trimmedContent with
  | None => Failed SyntaxError
  | Some parsed =>
      match member parsed (str "uid") with
      | inr e => Failed e
      | inl uid =>
          if truthy uid then
            match member parsed (str "data") with
            | inr e => Failed e
            | inl data =>
                if truthy data then Accepted parsed
                else InvalidStructure parsed
            end
          else InvalidStructure parsed
      end
  end.

(** [char === '\n' || char === ' ' || char === '\t' || char === '\r'] *)
Definition opensBody (c : char) : bool :=
  (c =? code "010") || (c =? code " ") || (c =? code "009")
  || (c =? code "013").

(** "release buffer": [displayContent += buffer + char], back to [none]. *)
Definition release (s : InternalState) (c : char) : InternalState :=
  I.mk none [] (I.displayContent s ++ I.buffer s ++ [c])
       (I.completedBlocks s) (I.blockContent s) (I.console s).

(** [stage = next; buffer += char] *)
Definition advance (s : InternalState) (next : PatternStage) (c : char)
  : InternalState :=
  I.mk next (I.buffer s ++ [c]) (I.displayContent s)
       (I.completedBlocks s) (I.blockContent s) (I.console s).

Definition set_stage (s : InternalState) (next : PatternStage)
  : InternalState :=
  I.mk next (I.buffer s) (I.displayContent s)
       (I.completedBlocks s) (I.blockContent s) (I.console s).

(** [blockContent += more; stage = in_block] *)
Definition into_block (s : InternalState) (more : jstring) : InternalState :=
  I.mk in_block (I.buffer s) (I.displayContent s)
       (I.completedBlocks s) (I.blockContent s ++ more) (I.console s).

(** The [try]/[catch] of stage [closing3], followed by the reset of
    [blockContent], [buffer] and [stage]. *)
Definition finish_block (s : InternalState) : InternalState :=
  match inspect (I.blockContent s) with
  | Accepted parsed =>
      let blocks := I.completedBlocks s ++ [parsed] in
      I.mk none [] (I.displayContent s ++ placeholder (length blocks - 1))
           blocks [] (I.console s)
  | InvalidStructure parsed =>
      I.mk none [] (I.displayContent s) (I.completedBlocks s) []
           (I.console s ++ [warn_invalid_block_structure parsed])
  | Failed e =>
      I.mk none [] (I.displayContent s) (I.completedBlocks s) []
           (I.console s ++ [error_failed_to_parse e])
  end.

(** One iteration of the [while] loop: the [switch] on [state.stage]. *)
Definition step (s : InternalState) (c : char) : InternalState :=
  match I.stage s with
  | none =>
      if c =? tick then
        I.mk backtick1 [tick] (I.displayContent s)
             (I.completedBlocks s) (I.blockContent s) (I.console s)
      else
        I.mk none (I.buffer s) (I.displayContent s ++ [c])
             (I.completedBlocks s) (I.blockContent s) (I.console s)
  | backtick1 =>
      if c =? tick then advance s backtick2 c else release s c
  | backtick2 =>
      if c =? tick then advance s backtick3 c else release s c
  | backtick3 =>
      if c =? code "u" then advance s u c
      else if c =? tick then advance s backtick3 c
      else release s c
  | u =>
      if c =? code "i" then advance s ui c else release s c
  | ui =>
      if c =? code "c" then advance s uic c else release s c
  | uic =>
      if c =? code "p" then advance s uicp c else release s c
  | uicp =>
      if opensBody c then
        I.mk in_block [] (I.displayContent s)
             (I.completedBlocks s) [] (I.console s)
      else release s c
  | in_block =>
      if c =? tick then set_stage s closing1 else into_block s [c]
  | closing1 =>
      if c =? tick then set_stage s closing2 else into_block s [tick; c]
  | closing2 =>
      if c =? tick then set_stage s closing3
      else into_block s [tick; tick; c]
  | closing3 =>
      let s' := finish_block s in
      if negb (c =? tick) then
        if c =? tick then
          I.mk backtick1 [tick] (I.displayContent s')
               (I.completedBlocks s') (I.blockContent s') (I.console s')
        else
          I.mk (I.stage s') (I.buffer s') (I.displayContent s' ++ [c])
               (I.completedBlocks s') (I.blockContent s') (I.console s')
      else s'
  end.

(** The [while] loop over the characters that are left. *)
Fixpoint loop (s : InternalState) (rest : jstring) : InternalState :=
  match rest with
  | [] => s
  | c :: rest' => loop (step s c) rest'
  end.

Definition initial : InternalState := I.mk none [] [] [] [] [].

Definition scan (fullContent : jstring) : InternalState :=
  loop initial fullContent.

Definition inUICPBlock (st : PatternStage) : bool :=
  match st with
  | in_block | closing1 | closing2 | closing3 => true
  | _ => false
  end.

Definition result (s : InternalState) : StreamingParserState :=
  {| displayContent := I.displayContent s;
     hasPendingBlock := negb (bool_decide (I.stage s = none));
     isInUICPBlock := inUICPBlock (I.stage s);
     completedBlocks := I.completedBlocks s;
     buffer := I.buffer s ++ I.blockContent s |}.

Definition processStreamingContent
  (currentState : StreamingParserState) (fullContent : jstring)
  : StreamingParserState :=
  result (scan fullContent).

Definition parseStreamingContent (fullContent : jstring)
  : StreamingParserState :=
  processStreamingContent createStreamingParserState fullContent.

(** *** Vocabulary for the properties

    A scanned text falls into segments: characters released verbatim, a
    delimited block (opening fence with its tag and the whitespace after
    it, body, closing fence), and a backtick consumed right after a
    closing fence. *)

Inductive Segment :=
| Plain (released : jstring)
| Fenced (opener body : jstring)
| Swallowed.

Definition fence : jstring := [tick; tick; tick].

Definition source (g : Segment) : jstring :=
  match g with
  | Plain released => released
  | Fenced opener body => opener ++ body ++ fence
  | Swallowed => [tick]
  end.

Definition sources (gs : list Segment) : jstring := concat (map source gs).

(** What a segment adds to [completedBlocks] and [displayContent]. *)
Definition emit (out : list JsValue * jstring) (g : Segment)
  : list JsValue * jstring :=
  match g with
  | Plain released => (out.1, out.2 ++ released)
  | Fenced _ body =>
      match inspect body with
      | Accepted parsed =>
          (out.1 ++ [parsed], out.2 ++ placeholder (length out.1))
      | _ => out
      end
  | Swallowed => out
  end.

Definition replay (gs : list Segment) : list JsValue * jstring :=
  foldl emit ([], []) gs.

(** Three or more backticks, the tag, one whitespace character. *)
Definition isOpener (opener : jstring) : Prop :=
  exists n ws, (3 <= n)%nat /\ opensBody ws = true /\
    opener = replicate n tick ++ str "uicp" ++ [ws].

Definition delimited (g : Segment) : Prop :=
  match g with
  | Fenced opener _ => isOpener opener
  | _ => True
  end.

(** A segment that the result shows or keeps: released characters, or a
    delimited block that is in [completedBlocks] with its placeholder. *)
Definition shown (g : Segment) : Prop :=
  match g with
  | Plain _ => True
  | Fenced opener body =>
      isOpener opener /\ exists parsed, inspect body = Accepted parsed
  | Swallowed => False
  end.

(** Every character of [text] is displayed verbatim, or belongs to a
    completed block, or is in the returned buffer. *)
Definition accounted (text : jstring) (r : StreamingParserState) : Prop :=
  exists gs,
    Forall shown gs /\
    text = sources gs ++ buffer r /\
    replay gs = (completedBlocks r, displayContent r).

(** The minimal shape of a block: truthy [uid] and [data]. *)
Definition minimalShape (block : JsValue) : bool :=
  match member block (str "uid"), member block (str "data") with
  | inl uid, inl data => truthy uid && truthy data
  | _, _ => false
  end.

(** The opening fence with its tag. *)
Definition blockStart : jstring := str "```uicp".

(** The text ends in what may become a block start: a backtick, or a
    fence followed by a proper prefix of the tag. *)
Definition endsInBlockStart (text : jstring) : bool :=
  endsWith text [tick] || endsWith text (str "```u")
  || endsWith text (str "```ui") || endsWith text (str "```uic").

(** The stages from which the characters of [blockStart] lead into a
    block: nothing pending, or only backticks. *)
Definition beforeTag (st : PatternStage) : bool :=
  match st with
  | none | backtick1 | backtick2 | backtick3 => true
  | _ => false
  end.

(** Does the scan of [rest] from [s] consume a backtick in stage
    [closing3]? *)
Fixpoint swallows (s : InternalState) (rest : jstring) : bool :=
  match rest with
  | [] => false
  | c :: rest' =>
      (bool_decide (I.stage s = closing3) && (c =? tick))
      || swallows (step s c) rest'
  end.

(** How many closing fences the scan of [rest] from [s] passes: the
    iterations it spends in stage [closing3]. *)
Fixpoint closings (s : InternalState) (rest : jstring) : nat :=
  match rest with
  | [] => 0
  | c :: rest' =>
      (if bool_decide (I.stage s = closing3) then 1 else 0)
      + closings (step s c) rest'
  end.

(** *** The segmentation of a consumed text *)

(** The letters of the tag that a stage has seen after the opening fence. *)
Definition tagSeen (st : PatternStage) : option jstring :=
  match st with
  | backtick3 => Some []
  | u => Some (str "u")
  | ui => Some (str "ui")
  | uic => Some (str "uic")
  | uicp => Some (str "uicp")
  | _ => None
  end.

(** The closing backticks that a stage inside a block has seen. *)
Definition ticksSeen (st : PatternStage) : nat :=
  match st with
  | closing1 => 1
  | closing2 => 2
  | closing3 => 3
  | _ => 0
  end.

(** [tail] is the unfinished end of the consumed text in state [s]. *)
Definition pending (s : InternalState) (tail : jstring) : Prop :=
  match I.stage s with
  | none => tail = [] /\ I.buffer s = [] /\ I.blockContent s = []
  | backtick1 => tail = [tick] /\ I.buffer s = tail /\ I.blockContent s = []
  | backtick2 =>
      tail = [tick; tick] /\ I.buffer s = tail /\ I.blockContent s = []
  | backtick3 | u | ui | uic | uicp =>
      (exists n, (3 <= n)%nat /\
         tail = replicate n tick ++ default [] (tagSeen (I.stage s)))
      /\ I.buffer s = tail /\ I.blockContent s = []
  | in_block | closing1 | closing2 | closing3 =>
      (exists opener, isOpener opener /\
         tail = opener ++ I.blockContent s
                ++ replicate (ticksSeen (I.stage s)) tick)
      /\ I.buffer s = []
  end.

Definition segmented (consumed : jstring) (s : InternalState) : Prop :=
  exists gs tail,
    consumed = sources gs ++ tail /\
    Forall delimited gs /\
    replay gs = (I.completedBlocks s, I.displayContent s) /\
    pending s tail /\
    (Swallowed ∈ gs -> swallows initial consumed = true) /\
    (Swallowed ∈ gs -> exists opener body, Fenced opener body ∈ gs).

(** The characters of the body consumed so far, inside a block. *)
Definition bodySeen (s : InternalState) : jstring :=
  I.blockContent s ++ replicate (ticksSeen (I.stage s)) tick.

(** The same output so far: blocks, display text and console. *)
Definition sameOutput (s s' : InternalState) : Prop :=
  I.completedBlocks s' = I.completedBlocks s /\
  I.displayContent s' = I.displayContent s /\
  I.console s' = I.console s.

End Parser.

End StreamingParser.

(** ** A reference [JSON.parse]

    The JSON grammar of ECMA-404, on code units.  A number literal
    whose value is within the range of doubles is kept as its exact
    decimal value; one that rounds to zero is [0], and one that rounds
    beyond the largest double is an infinity. *)

Module Json.

Definition isWhitespace (c : char) : bool :=
  (c =? 32) || (c =? 9) || (c =? 10) || (c =? 13).

Fixpoint skip (s : jstring) : jstring :=
  match s with
  | c :: s' => if isWhitespace c then skip s' else s
  | [] => []
  end.

Definition digit (c : char) : option Z :=
  if (48 <=? c) && (c <=? 57) then Some (Z.of_N (c - 48)) else None.

Definition hexDigit (c : char) : option N :=
  if (48 <=? c) && (c <=? 57) then Some (c - 48)
  else if (97 <=? c) && (c <=? 102) then Some (c - 87)
  else if (65 <=? c) && (c <=? 70) then Some (c - 55)
  else None.

(** A run of digits: its value on top of [acc], how many there were, and
    what follows. *)
Fixpoint digits (s : jstring) (acc : Z) (count : Z) : Z * Z * jstring :=
  match s with
  | c :: s' =>
      match digit c with
      | Some d => digits s' (10 * acc + d)%Z (count + 1)%Z
      | None => (acc, count, s)
      end
  | [] => (acc, count, [])
  end.

(** The number that a literal of value [m * 10^e] gives.  Rounding to
    the nearest double, ties to even: a value of at most [2^-1075], half
    the least positive double, gives [0], and a value of at least
    [2^1024 - 2^970], half way from the largest double to [2^1024],
    gives an infinity. *)
Definition rounded (m e : Z) : JsNumber :=
  let '(num, den) :=
    if (0 <=? e)%Z then (Z.abs m * 10 ^ e, 1)%Z
    else (Z.abs m, 10 ^ (- e))%Z in
  if (num * 2 ^ 1075 <=? den)%Z then Finite 0 0
  else if ((2 ^ 1024 - 2 ^ 970) * den <=? num)%Z then Infinite (m <? 0)%Z
  else Finite m e.

(** [-? int frac? exp?] *)
Definition number (s : jstring) : option (JsNumber * jstring) :=
  let '(negative, s1) :=
    match s with
    | c :: s' => if c =? code "-" then (true, s') else (false, s)
    | [] => (false, s)
    end in
  let '(int, n, s2) := digits s1 0%Z 0%Z in
  if (n =? 0)%Z then None
  else if (1 <? n)%Z && startsWith s1 [code "0"] then None
  else
    let frac :=
      match s2 with
      | c :: s' =>
          if c =? code "." then
            let '(m, k, s3) := digits s' int 0%Z in
            if (k =? 0)%Z then None else Some (m, k, s3)
          else Some (int, 0%Z, s2)
      | [] => Some (int, 0%Z, s2)
      end in
    match frac with
    | None => None
    | Some (m, k, s3) =>
        let exp :=
          match s3 with
          | c :: s' =>
              if (c =? code "e") || (c =? code "E") then
                let '(minus, s4) :=
                  match s' with
                  | d :: s'' =>
                      if d =? code "-" then (true, s'')
                      else if d =? code "+" then (false, s'')
                      else (false, s')
                  | [] => (false, s')
                  end in
                let '(e, j, s5) := digits s4 0%Z 0%Z in
                if (j =? 0)%Z then None
                else Some ((if minus then - e else e)%Z, s5)
              else Some (0%Z, s3)
          | [] => Some (0%Z, s3)
          end in
        match exp with
        | None => None
        | Some (e, s5) =>
            Some (rounded (if negative then - m else m)%Z (e - k)%Z, s5)
        end
    end.

(** The characters of a string literal after its opening quote, and what
    follows the closing quote. *)
Fixpoint chars (s : jstring) (acc : jstring) : option (jstring * jstring) :=
  match s with
  | [] => None
  | c :: s' =>
      if c =? quote then Some (rev acc, s')
      else if c <? 32 then None
      else if c =? code "\" then
        match s' with
        | e :: s'' =>
            if e =? code "u" then
              match s'' with
              | a :: b :: c' :: d :: s3 =>
                  match hexDigit a, hexDigit b, hexDigit c', hexDigit d with
                  | Some x, Some y, Some z, Some w =>
                      chars s3 ((4096 * x + 256 * y + 16 * z + w) :: acc)
                  | _, _, _, _ => None
                  end
              | _ => None
              end
            else if e =? quote then chars s'' (quote :: acc)
            else if e =? code "\" then chars s'' (code "\" :: acc)
            else if e =? code "/" then chars s'' (code "/" :: acc)
            else if e =? code "b" then chars s'' (8 :: acc)
            else if e =? code "f" then chars s'' (12 :: acc)
            else if e =? code "n" then chars s'' (10 :: acc)
            else if e =? code "r" then chars s'' (13 :: acc)
            else if e =? code "t" then chars s'' (9 :: acc)
            else None
        | [] => None
        end
      else chars s' (c :: acc)
  end.

Definition literal (word : jstring) (v : JsValue) (s : jstring)
  : option (JsValue * jstring) :=
  if startsWith s word then Some (v, drop (length word) s) else None.

(** A value, the members of an object after its first brace or a comma,
    the elements of an array likewise.  [fuel] bounds the nesting. *)
Fixpoint value (fuel : nat) (s : jstring) : option (JsValue * jstring) :=
  match fuel with
  | O => None
  | S fuel' =>
      match skip s with
      | [] => None
      | c :: s' =>
          if c =? code "{" then
            match skip s' with
            | d :: s'' =>
                if d =? code "}" then Some (JObj [], s'')
                else members fuel' s' []
            | [] => None
            end
          else if c =? code "[" then
            match skip s' with
            | d :: s'' =>
                if d =? code "]" then Some (JArr [], s'')
                else elements fuel' s' []
            | [] => None
            end
          else if c =? quote then
            match chars s' [] with
            | Some (text, rest) => Some (JStr text, rest)
            | None => None
            end
          else if c =? code "t" then literal (str "true") (JBool true) (c :: s')
          else if c =? code "f" then literal (str "false") (JBool false) (c :: s')
          else if c =? code "n" then literal (str "null") JNull (c :: s')
          else
            match number (c :: s') with
            | Some (n, rest) => Some (JNum n, rest)
            | None => None
            end
      end
  end
with members (fuel : nat) (s : jstring) (acc : list (jstring * JsValue))
  : option (JsValue * jstring) :=
  match fuel with
  | O => None
  | S fuel' =>
      match skip s with
      | q :: s1 =>
          if q =? quote then
            match chars s1 [] with
            | Some (key, s2) =>
                match skip s2 with
                | colon :: s3 =>
                    if colon =? code ":" then
                      match value fuel' s3 with
                      | Some (v, s4) =>
                          match skip s4 with
                          | d :: s5 =>
                              if d =? code "," then
                                members fuel' s5 ((key, v) :: acc)
                              else if d =? code "}" then
                                Some (JObj (rev ((key, v) :: acc)), s5)
                              else None
                          | [] => None
                          end
                      | None => None
                      end
                    else None
                | [] => None
                end
            | None => None
            end
          else None
      | [] => None
      end
  end
with elements (fuel : nat) (s : jstring) (acc : list JsValue)
  : option (JsValue * jstring) :=
  match fuel with
  | O => None
  | S fuel' =>
      match value fuel' s with
      | Some (v, s1) =>
          match skip s1 with
          | d :: s2 =>
              if d =? code "," then elements fuel' s2 (v :: acc)
              else if d =? code "]" then Some (JArr (rev (v :: acc)), s2)
              else None
          | [] => None
          end
      | None => None
      end
  end.

(** [JSON.parse(text)]; [None] is a SyntaxError. *)
Definition parse (text : jstring) : option JsValue :=
  match value (S (length text)) text with
  | Some (v, rest) => match skip rest with [] => Some v | _ => None end
  | None => None
  end.

End Json.

(** ** The definitions cache ([definitions-loader.ts]) *)

Module DefinitionsLoader.

Section Cache.

(** The parsed definitions document. *)
Variable Definitions : Type.

(** [string | Definitions] *)
Inductive Source :=
| uri (source : jstring)
| object (definitions : Definitions).

Record Entry := { data : Definitions; timestamp : Z }.

(** The module-level [definitionsCache], and next to it the sources that
    [loadDefinitions] has been asked to fetch or read so far. *)
Record World := {
  definitionsCache : gmap jstring Entry;
  loads : list jstring
}.

Definition DEFAULT_CACHE_TTL : Z := 5 * 60 * 1000.

(** What the awaited promise of a load settles to. *)
Inductive Settled (A : Type) :=
| resolved (a : A)
| rejected (reason : jstring).
Arguments resolved {A} a.
Arguments rejected {A} reason.

(** [loadDefinitions]: an object is returned as it is; a string is
    fetched or read from the file system, and [outcome] is what that
    settles to. *)
Definition loadDefinitions (w : World) (source : Source)
  (outcome : Settled Definitions) : Settled Definitions * World :=
  match source with
  | object definitions => (resolved definitions, w)
  | uri s =>
      (outcome,
       {| definitionsCache := definitionsCache w; loads := loads w ++ [s] |})
  end.

(** [cached && Date.now() - cached.timestamp < ttl]: the entry when the
    test passes. *)
Definition fresh (cached : option Entry) (now ttl : Z) : option Entry :=
  match cached with
  | Some entry =>
      if (now - timestamp entry <? ttl)%Z then Some entry else None
  | None => None
  end.

(** [loadDefinitionsWithCache(source, ttl)].  [now] is [Date.now()] at the
    cache check, [outcome] what the load settles to, and [later] is
    [Date.now()] when the loaded data is stored. *)
Definition loadDefinitionsWithCache (w : World) (source : Source)
  (ttl : option Z) (now : Z) (outcome : Settled Definitions) (later : Z)
  : Settled Definitions * World :=
  let ttl := default DEFAULT_CACHE_TTL ttl in
  match source with
  | object definitions => (resolved definitions, w)
  | uri s =>
      let cached := definitionsCache w !! s in
      match fresh cached now ttl with
      | Some entry => (resolved (data entry), w)
      | None =>
          match loadDefinitions w source outcome with
          | (resolved d, w') =>
              (resolved d,
               {| definitionsCache :=
                    <[s := {| data := d; timestamp := later |}]>
                      (definitionsCache w');
                  loads := loads w' |})
          | (rejected reason, w') => (rejected reason, w')
          end
      end
  end.

(** [loadDefinitionsWithCache] is suspended at its [await]: other calls
    can run between its cache check and the storing of its result. *)

(** How a call stands at its [await]: it has returned, or it waits for
    the load of a source. *)
Inductive Started :=
| answered (definitions : Definitions)
| awaiting (source : jstring).

(** The call up to its [await]; [now] is [Date.now()] at the cache
    check. *)
Definition beforeAwait (w : World) (source : Source) (ttl : option Z)
  (now : Z) : Started * World :=
  let ttl := default DEFAULT_CACHE_TTL ttl in
  match source with
  | object definitions => (answered definitions, w)
  | uri s =>
      let cached := definitionsCache w !! s in
      match fresh cached now ttl with
      | Some entry => (answered (data entry), w)
      | None =>
          (awaiting s,
           {| definitionsCache := definitionsCache w;
              loads := loads w ++ [s] |})
      end
  end.

(** The call from its [await] on, once the load of [s] has settled to
    [outcome]; [later] is [Date.now()] when the data is stored. *)
Definition afterAwait (w : World) (s : jstring)
  (outcome : Settled Definitions) (later : Z)
  : Settled Definitions * World :=
  match outcome with
  | resolved d =>
      (resolved d,
       {| definitionsCache :=
            <[s := {| data := d; timestamp := later |}]> (definitionsCache w);
          loads := loads w |})
  | rejected reason => (rejected reason, w)
  end.

Definition clearDefinitionsCache (w : World) (source : option jstring)
  : World :=
  match source with
  | Some s =>
      match s with
      | [] => {| definitionsCache := ∅; loads := loads w |}
      | _ => {| definitionsCache := delete s (definitionsCache w);
                loads := loads w |}
      end
  | None => {| definitionsCache := ∅; loads := loads w |}
  end.

End Cache.

Arguments uri {Definitions} source.
Arguments object {Definitions} definitions.
Arguments definitionsCache {Definitions} w.
Arguments loads {Definitions} w.
Arguments data {Definitions} e.
Arguments timestamp {Definitions} e.
Arguments answered {Definitions} definitions.
Arguments awaiting {Definitions} source.
Arguments resolved {A} a.
Arguments rejected {A} reason.

End DefinitionsLoader.

(** ** The component registry and loader ([loader.ts]) *)

Module Loader.

Section Registry.

(** JavaScript values that a module can export, with the two
    observations the loader makes of them. *)
Variable Value : Type.
(** ToBoolean *)
Variable truthy : Value -> bool.
(** [typeof exp === 'function' || typeof exp === 'object'] *)
Variable isFunctionOrObject : Value -> bool.

(** A module namespace object: its exports in the order [Object.values]
    enumerates them. *)
Definition Module_ := list (jstring * Value).

(** [await import(fullPath)]: the namespace, or the reason of the
    rejection. *)
Variable import : jstring -> Module_ + jstring.

Inductive LogEntry :=
| no_valid_component_export (fullPath : jstring)
| failed_to_load_component (uid componentPath : jstring) (error : jstring).

(** The module-level [componentRegistry], the console, and the paths
    imported so far. *)
Record World := {
  componentRegistry : gmap jstring Value;
  console : list LogEntry;
  imported : list jstring
}.

Definition registerComponent (w : World) (uid : jstring) (component : Value)
  : World :=
  {| componentRegistry := <[uid := component]> (componentRegistry w);
     console := console w;
     imported := imported w |}.

Definition getComponent (w : World) (uid : jstring) : option Value :=
  componentRegistry w !! uid.

(** The registered uids; the insertion order in which [Map.keys]
    enumerates them is not modelled. *)
Definition getRegisteredComponents (w : World) : list jstring :=
  (map_to_list (componentRegistry w)).*1.

Definition clearRegistry (w : World) (uid : option jstring) : World :=
  let registry :=
    match uid with
    | Some (c :: rest) => delete (c :: rest) (componentRegistry w)
    | _ => ∅
    end in
  {| componentRegistry := registry;
     console := console w;
     imported := imported w |}.

(** ToBoolean of a value that may be [undefined]. *)
Definition truthy' (v : option Value) : bool :=
  match v with
  | Some x => truthy x
  | None => false
  end.

(** [a || b] *)
Definition or_else (a b : option Value) : option Value :=
  if truthy' a then a else b.

(** [module[key]] *)
Fixpoint property (module : Module_) (key : jstring) : option Value :=
  match module with
  | [] => None
  | (k, v) :: rest => if decide (k = key) then Some v else property rest key
  end.

(** [\w] *)
Definition isWord (c : char) : bool :=
  ((48 <=? c) && (c <=? 57)) || ((65 <=? c) && (c <=? 90))
  || (c =? 95) || ((97 <=? c) && (c <=? 122)).

(** [split('/').pop()]: what follows the last slash. *)
Fixpoint lastSegment (path : jstring) (acc : jstring) : jstring :=
  match path with
  | [] => rev acc
  | c :: rest =>
      if c =? code "/" then lastSegment rest [] else lastSegment rest (c :: acc)
  end.

(** The leading word characters of [s], and the rest. *)
Fixpoint spanWord (s : jstring) : jstring * jstring :=
  match s with
  | c :: rest =>
      if isWord c then let '(word, rest') := spanWord rest in (c :: word, rest')
      else ([], s)
  | [] => ([], [])
  end.

(** [replace(/\.\w+$/, '')]: drop a final dot with one or more word
    characters after it. *)
Definition stripExtension (name : jstring) : jstring :=
  match spanWord (rev name) with
  | (_ :: _, c :: base) => if c =? code "." then rev base else name
  | _ => name
  end.

Inductive Outcome (A : Type) :=
| Returned (a : A)
| Thrown (error : jstring).
Arguments Returned {A} a.
Arguments Thrown {A} error.

(** The import path: [componentPath] when it is absolute, else under
    [basePath]. *)
Definition fullPathOf (componentPath basePath : jstring) : jstring :=
  if startsWith componentPath (str "/") then componentPath
  else basePath ++ str "/" ++ componentPath.

(** The body of the [try] block. *)
Definition try_body (w : World) (uid componentPath basePath : jstring)
  : Outcome (option Value) * World :=
  let fullPath := fullPathOf componentPath basePath in
  let w1 :=
    {| componentRegistry := componentRegistry w;
       console := console w;
       imported := imported w ++ [fullPath] |} in
  match import fullPath with
  | inr error => (Thrown error, w1)
  | inl module =>
      let component :=
        or_else
          (or_else
             (or_else (property module (str "default")) (property module uid))
             (property module
                (stripExtension (lastSegment componentPath []))))
          (snd <$> find (fun e => isFunctionOrObject (snd e)) module) in
      match component with
      | Some c =>
          if truthy c then (Returned (Some c), registerComponent w1 uid c)
          else
            (Returned None,
             {| componentRegistry := componentRegistry w1;
                console := console w1 ++ [no_valid_component_export fullPath];
                imported := imported w1 |})
      | None =>
          (Returned None,
           {| componentRegistry := componentRegistry w1;
              console := console w1 ++ [no_valid_component_export fullPath];
              imported := imported w1 |})
      end
  end.

(** [loadComponent(uid, componentPath, basePath)]; the result [None] is
    [null]. *)
Definition loadComponent (w : World) (uid componentPath : jstring)
  (basePath : option jstring) : Outcome (option Value) * World :=
  let basePath := default (str "/components/uicp") basePath in
  let cached := getComponent w uid in
  if truthy' cached then (Returned cached, w)
  else
    match try_body w uid componentPath basePath with
    | (Thrown error, w') =>
        (Returned None,
         {| componentRegistry := componentRegistry w';
            console :=
              console w' ++ [failed_to_load_component uid componentPath error];
            imported := imported w' |})
    | (Returned r, w') => (Returned r, w')
    end.

(** Every registered value is truthy, as a [ComponentType] is. *)
Definition registryTruthy (w : World) : Prop :=
  forall uid v, componentRegistry w !! uid = Some v -> truthy v = true.

End Registry.

Arguments Returned {A} a.
Arguments Thrown {A} error.
Arguments componentRegistry {Value} w.
Arguments console {Value} w.
Arguments imported {Value} w.

End Loader.

(** ** Rendering the parsed content ([react-components.ts])

    The body of [renderedContent] in [UICPContent]: the display text is
    split at the placeholders, each placeholder becomes the rendered
    block of that number, each other part that is not blank becomes a
    text node, and a spinner comes last while a block is arriving. *)

Module ReactComponents.

(** [\d] *)
Definition isDigit (c : char) : bool := (48 <=? c) && (c <=? 57).

(** The leading digits of [s], and the rest: a greedy [\d*]. *)
Fixpoint spanDigits (s : jstring) : jstring * jstring :=
  match s with
  | c :: rest =>
      if isDigit c
      then let '(digits, rest') := spanDigits rest in (c :: digits, rest')
      else ([], s)
  | [] => ([], [])
  end.

(** [/__UICP_BLOCK_(\d+)__/] matched at the start of [s]: the digits
    captured, and what follows the match. *)
Definition matchPlaceholderAt (s : jstring) : option (jstring * jstring) :=
  if startsWith s (str "__UICP_BLOCK_") then
    match spanDigits (drop 13 s) with
    | ((_ :: _) as digits, rest) =>
        if startsWith rest (str "__") then Some (digits, drop 2 rest)
        else None
    | _ => None
    end
  else None.

(** [s.split(/(__UICP_BLOCK_\d+__)/)].  [skip] counts the characters of
    a match that are still to be passed; [part] holds, reversed, the
    characters since the last match. *)
Fixpoint split_from (s : jstring) (skip : nat) (part : jstring)
  : list jstring :=
  match s with
  | [] => [rev part]
  | c :: s' =>
      match skip with
      | S more => split_from s' more part
      | O =>
          match matchPlaceholderAt s with
          | Some (digits, _) =>
              rev part
              :: (str "__UICP_BLOCK_" ++ digits ++ str "__")
              :: split_from s' (14 + length digits) []
          | None => split_from s' 0 (c :: part)
          end
      end
  end.

Definition split (s : jstring) : list jstring := split_from s 0 [].

(** [part.match(/__UICP_BLOCK_(\d+)__/)]: the digits of the leftmost
    match. *)
Fixpoint matchPlaceholder (part : jstring) : option jstring :=
  match matchPlaceholderAt part with
  | Some (digits, _) => Some digits
  | None =>
      match part with
      | [] => None
      | _ :: part' => matchPlaceholder part'
      end
  end.

(** [parseInt(digits, 10)] of a string of digits. *)
Definition parseInt (digits : jstring) : nat :=
  foldl (fun n c => (10 * n + N.to_nat (c - 48))%nat) 0%nat digits.

Section Render.

(** The loaded definitions, what [renderUICPBlock] returns, and what the
    renderers return. *)
Variables Definitions Element Rendered : Type.

(** [renderUICPBlock(block, definitions, key)]; [None] is [null]. *)
Variable renderUICPBlock : JsValue -> Definitions -> jstring -> option Element.
Variable textRenderFn : jstring -> Rendered.
Variable componentWrapperFn : Element -> Rendered.
Variable spinner : Rendered.

(** [React.createElement(React.Fragment, { key }, child)] *)
Inductive Node := fragment (key : jstring) (child : Rendered).

Definition key (node : Node) : jstring :=
  match node with fragment key _ => key end.

(** One call of the [forEach] callback: what it pushes. *)
Definition renderPart (parserState : StreamingParser.StreamingParserState)
  (loadedDefinitions : option Definitions) (index : nat) (part : jstring)
  : list Node :=
  match matchPlaceholder part with
  | Some digits =>
      let blockIndex := parseInt digits in
      let block := StreamingParser.completedBlocks parserState !! blockIndex in
      match block, loadedDefinitions with
      | Some b, Some definitions =>
          if truthy block then
            match renderUICPBlock b definitions
                    (str "component-" ++ decimal blockIndex) with
            | Some component =>
                [fragment (str "component-" ++ decimal blockIndex)
                   (componentWrapperFn component)]
            | None => []
            end
          else []
      | _, _ => []
      end
  | None =>
      match trim part with
      | [] => []
      | _ :: _ => [fragment (str "text-" ++ decimal index) (textRenderFn part)]
      end
  end.

Definition renderedContent
  (parserState : StreamingParser.StreamingParserState)
  (loadedDefinitions : option Definitions) (isStreaming : bool)
  : list Node :=
  let parts := split (StreamingParser.displayContent parserState) in
  concat (imap (renderPart parserState loadedDefinitions) parts)
  ++ (if isStreaming
         && (StreamingParser.isInUICPBlock parserState
             || StreamingParser.hasPendingBlock parserState)
      then [fragment (str "loading-spinner") spinner]
      else []).

(** *** Vocabulary for the properties *)

(** [JSON.parse], as the parser that produced the state uses it. *)
Variable JSON_parse : jstring -> option JsValue.

(** No underscore among the released characters of a segment. *)
Definition underscoreFree (g : StreamingParser.Segment) : Prop :=
  match g with
  | StreamingParser.Plain released => code "_" ∉ released
  | _ => True
  end.

(** The text node of the part at [index], unless the part is blank. *)
Definition textNode (index : nat) (part : jstring) : list Node :=
  match trim part with
  | [] => []
  | _ :: _ => [fragment (str "text-" ++ decimal index) (textRenderFn part)]
  end.

(** The node of block number [k], when the definitions are loaded and
    the block renders. *)
Definition componentNode (loadedDefinitions : option Definitions)
  (k : nat) (block : JsValue) : list Node :=
  match loadedDefinitions with
  | Some definitions =>
      match renderUICPBlock block definitions
              (str "component-" ++ decimal k) with
      | Some component =>
          [fragment (str "component-" ++ decimal k)
             (componentWrapperFn component)]
      | None => []
      end
  | None => []
  end.

(** The nodes of the segments of a text, in text order: [k] blocks have
    been accepted so far and [part] has been released since the last of
    them.  The released characters between two accepted blocks make one
    text node, an accepted block makes a component node, and a block
    that is not accepted makes none. *)
Fixpoint nodes (loadedDefinitions : option Definitions)
  (gs : list StreamingParser.Segment) (k : nat) (part : jstring)
  : list Node :=
  match gs with
  | [] => textNode (2 * k) part
  | StreamingParser.Plain released :: gs' =>
      nodes loadedDefinitions gs' k (part ++ released)
  | StreamingParser.Fenced _ body :: gs' =>
      match StreamingParser.inspect JSON_parse body with
      | StreamingParser.Accepted parsed =>
          textNode (2 * k) part
          ++ componentNode loadedDefinitions k parsed
          ++ nodes loadedDefinitions gs' (S k) []
      | _ => nodes loadedDefinitions gs' k part
      end
  | StreamingParser.Swallowed :: gs' => nodes loadedDefinitions gs' k part
  end.

(** What the segments add to [displayContent] and [completedBlocks],
    the next block being number [k]. *)
Fixpoint displayed (gs : list StreamingParser.Segment) (k : nat) : jstring :=
  match gs with
  | [] => []
  | StreamingParser.Plain released :: gs' => released ++ displayed gs' k
  | StreamingParser.Fenced _ body :: gs' =>
      match StreamingParser.inspect JSON_parse body with
      | StreamingParser.Accepted _ =>
          StreamingParser.placeholder k ++ displayed gs' (S k)
      | _ => displayed gs' k
      end
  | StreamingParser.Swallowed :: gs' => displayed gs' k
  end.

Fixpoint accepted (gs : list StreamingParser.Segment) : list JsValue :=
  match gs with
  | [] => []
  | StreamingParser.Fenced _ body :: gs' =>
      match StreamingParser.inspect JSON_parse body with
      | StreamingParser.Accepted parsed => parsed :: accepted gs'
      | _ => accepted gs'
      end
  | _ :: gs' => accepted gs'
  end.

End Render.

Arguments fragment {Rendered} key child.
Arguments key {Rendered} node.

End ReactComponents.

(** ** Texts, sources and modules of the scenarios *)

(** A well-formed block, and what its body parses to. *)
Definition block_X : jstring := quoted "```uicp
{'uid':'X','data':{'a':1}}
```".

Definition parsed_X : JsValue :=
  JObj [(str "uid", JStr (str "X"));
        (str "data", JObj [(str "a", JNum (Finite 1 0))])].

(** A delimited block whose body is not JSON. *)
Definition not_json : jstring := str "```uicp
not json
```".

Definition definitions_json : jstring := str "./definitions.json".

(** A module whose default export is the component [7]; values are
    numbers, truthy when not zero. *)
Definition card_module (path : jstring) : Loader.Module_ nat + jstring :=
  if decide (path = str "/components/uicp/Card.tsx")
  then inl [(str "default", 7%nat)]
  else inr (str "Cannot find module").

(** * Properties of the string operations *)

Section Strings.

Lemma startsWith_prefix s p : startsWith s p = true <-> p `prefix_of` s.
Proof.
  revert s. induction p as [|a p IH]; intros s; simpl.
  - split; [intros _; apply prefix_nil|done].
  - destruct s as [|b s].
    + split; [done|]. intros [k Hk]. discriminate.
    + rewrite andb_true_iff, N.eqb_eq, IH. split.
      * intros [-> Hp]. by apply prefix_cons.
      * intros [k Hk]. simplify_eq/=. split; [done|]. by exists k.
Qed.

Lemma includes_infix s p :
  includes s p = true <-> exists a b, s = a ++ p ++ b.
Proof.
  induction s as [|c s IH]; simpl.
  - rewrite orb_false_r, startsWith_prefix. split.
    + intros [k Hk]. by exists [], k.
    + intros (a & b & H). symmetry in H.
      apply app_eq_nil in H as [-> H]. apply app_eq_nil in H as [-> ->].
      done.
  - rewrite orb_true_iff, startsWith_prefix, IH. split.
    + intros [[k Hk]|(a & b & ->)].
      * by exists [], k.
      * by exists (c :: a), b.
    + intros ([|d a] & b & H); simpl in H.
      * left. by exists b.
      * right. simplify_eq. by exists a, b.
Qed.

Lemma includes_middle a p b : includes (a ++ p ++ b) p = true.
Proof. apply includes_infix. by exists a, b. Qed.

Lemma includes_app s a b p :
  includes s p = true -> includes (a ++ s ++ b) p = true.
Proof.
  rewrite !includes_infix. intros (x & y & ->).
  exists (a ++ x), (y ++ b). by rewrite <- !app_assoc.
Qed.

Lemma not_includes_app_l a b p :
  includes (a ++ b) p = false -> includes a p = false.
Proof.
  intros H. destruct (includes a p) eqn:Ha; [|done].
  rewrite <- H. symmetry.
  rewrite <- (app_nil_l (a ++ b)). by apply includes_app.
Qed.

Lemma not_includes_app_r a b p :
  includes (a ++ b) p = false -> includes b p = false.
Proof.
  intros H. destruct (includes b p) eqn:Hb; [|done].
  rewrite <- H. symmetry.
  rewrite <- (app_nil_r b). rewrite app_assoc, <- (app_assoc a).
  by apply includes_app.
Qed.

Lemma not_includes_cons c s p :
  includes (c :: s) p = false -> includes s p = false.
Proof. apply (not_includes_app_r [c]). Qed.

Lemma endsWith_app a p : endsWith (a ++ p) p = true.
Proof.
  unfold endsWith. rewrite rev_app_distr. apply startsWith_prefix.
  by apply prefix_app_r.
Qed.

End Strings.

(** * Properties of the streaming parser *)

Section StreamingParserProperties.

Import StreamingParser.

Variable JSON_parse : jstring -> option JsValue.

#[local] Abbreviation step := (step JSON_parse).
#[local] Abbreviation loop := (loop JSON_parse).
#[local] Abbreviation scan := (scan JSON_parse).
#[local] Abbreviation inspect := (inspect JSON_parse).
#[local] Abbreviation emit := (emit JSON_parse).
#[local] Abbreviation replay := (replay JSON_parse).
#[local] Abbreviation swallows := (swallows JSON_parse).
#[local] Abbreviation segmented := (segmented JSON_parse).
#[local] Abbreviation processStreamingContent := (processStreamingContent JSON_parse).

Lemma loop_app s a b : loop s (a ++ b) = loop (loop s a) b.
Proof. revert s. induction a as [|c a IH]; intros s; simpl; [done|apply IH]. Qed.

Lemma loop_snoc s a c : loop s (a ++ [c]) = step (loop s a) c.
Proof. by rewrite loop_app. Qed.

Lemma scan_snoc a c : scan (a ++ [c]) = step (scan a) c.
Proof. apply loop_snoc. Qed.

Lemma swallows_snoc s a c :
  swallows s (a ++ [c]) =
  swallows s a || (bool_decide (I.stage (loop s a) = closing3) && (c =? tick)).
Proof.
  revert s. induction a as [|d a IH]; intros s; simpl.
  - by rewrite orb_false_r.
  - by rewrite IH, orb_assoc.
Qed.

Lemma sources_snoc gs g : sources (gs ++ [g]) = sources gs ++ source g.
Proof.
  unfold sources. rewrite map_app, concat_app. simpl. by rewrite app_nil_r.
Qed.

Lemma replay_snoc gs g : replay (gs ++ [g]) = emit (replay gs) g.
Proof. unfold replay. apply foldl_snoc. Qed.

Lemma replicate_snoc {A} n (x : A) : replicate n x ++ [x] = replicate (S n) x.
Proof. induction n as [|n IH]; simpl; [done|by rewrite IH]. Qed.

Lemma sources_app gs hs : sources (gs ++ hs) = sources gs ++ sources hs.
Proof. unfold sources. by rewrite map_app, concat_app. Qed.

Lemma replay_app gs hs : replay (gs ++ hs) = foldl emit (replay gs) hs.
Proof. unfold replay. apply foldl_app. Qed.

Lemma segmented_initial : segmented [] initial.
Proof.
  exists [], []. repeat split; try done; intros H; inversion H.
Qed.

(** How one more character extends a segmentation: the old tail with the
    character is split again into new segments and a new tail. *)
Lemma segmented_extend consumed c s' gs tail hs tail' :
  consumed = sources gs ++ tail ->
  tail ++ [c] = sources hs ++ tail' ->
  Forall delimited gs ->
  Forall delimited hs ->
  foldl emit (replay gs) hs = (I.completedBlocks s', I.displayContent s') ->
  pending s' tail' ->
  (Swallowed ∈ gs -> swallows initial consumed = true) ->
  (Swallowed ∈ gs -> exists opener body, Fenced opener body ∈ gs) ->
  (Swallowed ∈ hs ->
     (I.stage (scan consumed) = closing3 /\ c = tick) /\
     exists opener body, Fenced opener body ∈ hs) ->
  segmented (consumed ++ [c]) s'.
Proof.
  intros Hc Ht Hd Hd' Hr Hp Hsw Hfe Hsw'.
  exists (gs ++ hs), tail'. split_and!.
  - rewrite sources_app, Hc, <- !app_assoc. by rewrite Ht.
  - by apply Forall_app.
  - by rewrite replay_app.
  - done.
  - intros [Hin|Hin]%elem_of_app; rewrite swallows_snoc.
    + by rewrite Hsw.
    + destruct (Hsw' Hin) as [[Hst ->] _]. unfold StreamingParser.scan in Hst.
      rewrite bool_decide_eq_true_2 by done. by rewrite orb_true_r.
  - intros [Hin|Hin]%elem_of_app.
    + destruct (Hfe Hin) as (o & b & H). exists o, b.
      apply elem_of_app. by left.
    + destruct (Hsw' Hin) as [_ (o & b & H)]. exists o, b.
      apply elem_of_app. by right.
Qed.

Ltac no_swallow :=
  let H := fresh in
  intros H;
  repeat (apply elem_of_cons in H as [H|H]; [discriminate|]);
  inversion H.

Ltac resplit Hc Hd Hsw Hfe gs tail hs tail' :=
  eapply (segmented_extend _ _ _ gs tail hs tail');
  [exact Hc | | exact Hd | | | | exact Hsw | exact Hfe | ].

Ltac side Hr :=
  first
    [ done
    | by (unfold sources; simpl; rewrite ?app_nil_r, <- ?app_assoc)
    | by repeat constructor
    | by (simpl; rewrite Hr)
    | by unfold pending
    | no_swallow ].

#[local] Arguments code : simpl never.
#[local] Arguments str : simpl never.
#[local] Arguments tick : simpl never.

Lemma segmented_step consumed s c :
  s = scan consumed -> segmented consumed s ->
  segmented (consumed ++ [c]) (step s c).
Proof.
  intros Hs (gs & tail & Hc & Hd & Hr & Hp & Hsw & Hfe).
  destruct s as [st buf disp blocks bc con].
  unfold pending in Hp. simpl in Hr, Hp.
  destruct st; unfold step; simpl.
  - (* none *)
    destruct Hp as (-> & -> & ->).
    destruct (N.eqb_spec c tick) as [->|Hne].
    + resplit Hc Hd Hsw Hfe gs (@nil char) (@nil Segment) [tick]; side Hr.
    + resplit Hc Hd Hsw Hfe gs (@nil char) [Plain [c]] (@nil char); side Hr.
  - (* backtick1 *)
    destruct Hp as (-> & -> & ->).
    destruct (N.eqb_spec c tick) as [->|Hne].
    + resplit Hc Hd Hsw Hfe gs [tick] (@nil Segment) [tick; tick]; side Hr.
    + resplit Hc Hd Hsw Hfe gs [tick] [Plain [tick; c]] (@nil char); side Hr.
  - (* backtick2 *)
    destruct Hp as (-> & -> & ->).
    destruct (N.eqb_spec c tick) as [->|Hne].
    + resplit Hc Hd Hsw Hfe gs [tick; tick] (@nil Segment) [tick; tick; tick];
        try side Hr.
      unfold pending; simpl. split_and!; try done. exists 3%nat. split; [lia|done].
    + resplit Hc Hd Hsw Hfe gs [tick; tick] [Plain [tick; tick; c]] (@nil char);
        side Hr.
  - (* backtick3 *)
    destruct Hp as ((n & Hn & ->) & -> & ->). simpl in Hc |- *.
    rewrite app_nil_r in Hc |- *.
    destruct (N.eqb_spec c (code "u")) as [->|Hne];
      [|destruct (N.eqb_spec c tick) as [->|Hne']].
    + resplit Hc Hd Hsw Hfe gs (replicate n tick) (@nil Segment)
        (replicate n tick ++ str "u"); try side Hr.
      unfold pending; simpl. split_and!; try done. by exists n.
    + resplit Hc Hd Hsw Hfe gs (replicate n tick) (@nil Segment)
        (replicate (S n) tick); try side Hr.
      * by rewrite replicate_snoc.
      * unfold pending; simpl. split_and!; try done.
        -- exists (S n). split; [lia|]. by rewrite app_nil_r.
        -- by rewrite replicate_snoc.
    + resplit Hc Hd Hsw Hfe gs (replicate n tick)
        [Plain (replicate n tick ++ [c])] (@nil char); side Hr.
  - (* u *)
    destruct Hp as ((n & Hn & ->) & -> & ->). simpl in Hc |- *.
    destruct (N.eqb_spec c (code "i")) as [->|Hne].
    + resplit Hc Hd Hsw Hfe gs (replicate n tick ++ str "u") (@nil Segment)
        (replicate n tick ++ str "ui"); try side Hr.
      unfold pending; simpl. split_and!; try done; [by exists n|].
      by rewrite <- app_assoc.
    + resplit Hc Hd Hsw Hfe gs (replicate n tick ++ str "u")
        [Plain ((replicate n tick ++ str "u") ++ [c])] (@nil char); side Hr.
  - (* ui *)
    destruct Hp as ((n & Hn & ->) & -> & ->). simpl in Hc |- *.
    destruct (N.eqb_spec c (code "c")) as [->|Hne].
    + resplit Hc Hd Hsw Hfe gs (replicate n tick ++ str "ui") (@nil Segment)
        (replicate n tick ++ str "uic"); try side Hr.
      unfold pending; simpl. split_and!; try done; [by exists n|].
      by rewrite <- app_assoc.
    + resplit Hc Hd Hsw Hfe gs (replicate n tick ++ str "ui")
        [Plain ((replicate n tick ++ str "ui") ++ [c])] (@nil char); side Hr.
  - (* uic *)
    destruct Hp as ((n & Hn & ->) & -> & ->). simpl in Hc |- *.
    destruct (N.eqb_spec c (code "p")) as [->|Hne].
    + resplit Hc Hd Hsw Hfe gs (replicate n tick ++ str "uic") (@nil Segment)
        (replicate n tick ++ str "uicp"); try side Hr.
      unfold pending; simpl. split_and!; try done; [by exists n|].
      by rewrite <- app_assoc.
    + resplit Hc Hd Hsw Hfe gs (replicate n tick ++ str "uic")
        [Plain ((replicate n tick ++ str "uic") ++ [c])] (@nil char); side Hr.
  - (* uicp *)
    destruct Hp as ((n & Hn & ->) & -> & ->). simpl in Hc |- *.
    destruct (opensBody c) eqn:Hws.
    + resplit Hc Hd Hsw Hfe gs (replicate n tick ++ str "uicp") (@nil Segment)
        ((replicate n tick ++ str "uicp") ++ [c]); try side Hr.
      unfold pending; simpl. split_and!; try done.
      exists ((replicate n tick ++ str "uicp") ++ [c]). split.
      * exists n, c. split_and!; try done. by rewrite <- app_assoc.
      * by rewrite app_nil_r.
    + resplit Hc Hd Hsw Hfe gs (replicate n tick ++ str "uicp")
        [Plain ((replicate n tick ++ str "uicp") ++ [c])] (@nil char); side Hr.
  - (* in_block *)
    destruct Hp as ((o & Ho & ->) & ->). simpl in Hc |- *.
    rewrite app_nil_r in Hc.
    destruct (N.eqb_spec c tick) as [->|Hne].
    + resplit Hc Hd Hsw Hfe gs (o ++ bc) (@nil Segment) (o ++ bc ++ [tick]);
        try side Hr.
      unfold pending; simpl. split_and!; try done. by exists o.
    + resplit Hc Hd Hsw Hfe gs (o ++ bc) (@nil Segment) (o ++ bc ++ [c]);
        try side Hr.
      unfold pending; simpl. split_and!; try done. exists o.
      split; [done|]. by rewrite app_nil_r.
  - (* closing1 *)
    destruct Hp as ((o & Ho & ->) & ->). simpl in Hc |- *.
    destruct (N.eqb_spec c tick) as [->|Hne].
    + resplit Hc Hd Hsw Hfe gs (o ++ bc ++ [tick]) (@nil Segment)
        (o ++ bc ++ [tick; tick]); try side Hr.
      unfold pending; simpl. split_and!; try done. by exists o.
    + resplit Hc Hd Hsw Hfe gs (o ++ bc ++ [tick]) (@nil Segment)
        (o ++ bc ++ [tick; c]); try side Hr.
      unfold pending; simpl. split_and!; try done. exists o.
      split; [done|]. by rewrite app_nil_r.
  - (* closing2 *)
    destruct Hp as ((o & Ho & ->) & ->). simpl in Hc |- *.
    destruct (N.eqb_spec c tick) as [->|Hne].
    + resplit Hc Hd Hsw Hfe gs (o ++ bc ++ [tick; tick]) (@nil Segment)
        (o ++ bc ++ [tick; tick; tick]); try side Hr.
      unfold pending; simpl. split_and!; try done. by exists o.
    + resplit Hc Hd Hsw Hfe gs (o ++ bc ++ [tick; tick]) (@nil Segment)
        (o ++ bc ++ [tick; tick; c]); try side Hr.
      unfold pending; simpl. split_and!; try done. exists o.
      split; [done|]. by rewrite app_nil_r.
  - (* closing3 *)
    destruct Hp as ((o & Ho & ->) & ->). simpl in Hc |- *.
    assert (Hlen : forall parsed : JsValue,
               (length (blocks ++ [parsed]) - 1)%nat = length blocks)
      by (intros; rewrite length_app; simpl; lia).
    destruct (N.eqb_spec c tick) as [->|Hne]; simpl.
    + resplit Hc Hd Hsw Hfe gs (o ++ bc ++ fence)
        [Fenced o bc; Swallowed] (@nil char).
      * unfold sources; simpl. by rewrite !app_nil_r, <- !app_assoc.
      * by repeat constructor.
      * simpl. rewrite Hr. unfold StreamingParser.emit, finish_block; simpl.
        destruct (inspect bc); simpl; by rewrite ?Hlen.
      * unfold pending, finish_block; simpl. by destruct (inspect bc).
      * intros _. split; [by rewrite <- Hs|]. exists o, bc. constructor.
    + resplit Hc Hd Hsw Hfe gs (o ++ bc ++ fence)
        [Fenced o bc; Plain [c]] (@nil char).
      * unfold sources; simpl. by rewrite !app_nil_r, <- !app_assoc.
      * by repeat constructor.
      * simpl. rewrite Hr. unfold StreamingParser.emit, finish_block; simpl.
        destruct (inspect bc); simpl; by rewrite ?Hlen.
      * unfold pending, finish_block; simpl. by destruct (inspect bc).
      * no_swallow.
Qed.

Lemma segmented_scan text : segmented text (scan text).
Proof.
  induction text as [|c text IH] using rev_ind.
  - apply segmented_initial.
  - rewrite scan_snoc. by apply segmented_step.
Qed.

(** *** What one step does to [completedBlocks] *)

Lemma inspect_Accepted bc parsed :
  inspect bc = Accepted parsed -> minimalShape parsed = true.
Proof.
  unfold StreamingParser.inspect, minimalShape.
  destruct (JSON_parse (trim bc)) as [v|]; [|done].
  destruct (member v (str "uid")) as [uid|] eqn:Hm; [|done].
  destruct (truthy uid) eqn:Hu; [|done].
  destruct (member v (str "data")) as [data|] eqn:Hd; [|done].
  destruct (truthy data) eqn:Ht; [|done].
  intros [= <-]. by rewrite Hm, Hd, Hu, Ht.
Qed.

Lemma finish_block_blocks s :
  I.completedBlocks (finish_block JSON_parse s) = I.completedBlocks s \/
  exists parsed,
    inspect (I.blockContent s) = Accepted parsed /\
    I.completedBlocks (finish_block JSON_parse s)
    = I.completedBlocks s ++ [parsed].
Proof.
  unfold finish_block. destruct (inspect (I.blockContent s)) eqn:H; eauto.
Qed.

Lemma step_blocks s c :
  I.completedBlocks (step s c) = I.completedBlocks s \/
  exists parsed,
    minimalShape parsed = true /\
    I.completedBlocks (step s c) = I.completedBlocks s ++ [parsed].
Proof.
  unfold StreamingParser.step.
  destruct (I.stage s) eqn:Hst;
    repeat match goal with |- context [if ?b then _ else _] => destruct b end;
    simpl; auto.
  all: destruct (finish_block_blocks s) as [H|(parsed & Hi & H)];
    [by left|right; exists parsed; split; [by eapply inspect_Accepted|done]].
Qed.

Lemma loop_blocks_prefix s rest :
  I.completedBlocks s `prefix_of` I.completedBlocks (loop s rest).
Proof.
  revert s. induction rest as [|c rest IH]; intros s; simpl; [done|].
  etrans; [|apply IH].
  destruct (step_blocks s c) as [->|(parsed & _ & ->)]; [done|].
  by apply prefix_app_r.
Qed.

Lemma loop_blocks_shape s rest :
  Forall (fun b => minimalShape b = true) (I.completedBlocks s) ->
  Forall (fun b => minimalShape b = true) (I.completedBlocks (loop s rest)).
Proof.
  revert s. induction rest as [|c rest IH]; intros s Hs; simpl; [done|].
  apply IH.
  destruct (step_blocks s c) as [->|(parsed & Hp & ->)]; [done|].
  apply Forall_app. split; [done|by constructor].
Qed.

(** C10: every element of [completedBlocks] has truthy [uid] and [data]
    fields, and the flags are consistent: whenever [isInUICPBlock] is true,
    so is [hasPendingBlock]. *)
Theorem result_invariant (currentState : StreamingParserState) text :
  Forall (fun block => minimalShape block = true)
    (completedBlocks (processStreamingContent currentState text))
  /\ implb (isInUICPBlock (processStreamingContent currentState text))
       (hasPendingBlock (processStreamingContent currentState text)) = true.
Proof.
  split.
  - unfold StreamingParser.processStreamingContent, result; simpl.
    apply loop_blocks_shape. constructor.
  - unfold StreamingParser.processStreamingContent, result; simpl.
    by destruct (I.stage (scan text)).
Qed.

(** C5: the result does not depend on the [currentState] argument, so two
    runs on the same full text agree on every field; and the
    [completedBlocks] of a text are a prefix of the [completedBlocks] of
    any extension of that text. *)
Theorem extraction_idempotent_and_stable
  (state1 state2 : StreamingParserState) (text suffix : jstring) :
  processStreamingContent state1 text = processStreamingContent state2 text
  /\ completedBlocks (processStreamingContent state1 text)
     `prefix_of`
     completedBlocks (processStreamingContent state2 (text ++ suffix)).
Proof.
  split; [done|].
  unfold StreamingParser.processStreamingContent, result,
    StreamingParser.scan; simpl.
  rewrite loop_app. apply loop_blocks_prefix.
Qed.

(** *** Segments of a whole text *)

(** The text falls into segments in order; each accepted block adds its
    parsed body to [completedBlocks] and, at that point of
    [displayContent], the placeholder numbered by its position there. *)
Lemma blocks_and_placeholders_in_order
  (currentState : StreamingParserState) text :
  exists gs tail,
    text = sources gs ++ tail /\
    Forall delimited gs /\
    replay gs = (completedBlocks (processStreamingContent currentState text),
                 displayContent (processStreamingContent currentState text)).
Proof.
  destruct (segmented_scan text) as (gs & tail & Hc & Hd & Hr & _).
  by exists gs, tail.
Qed.

(** Replaying segments only appends to the blocks and to the display. *)
Lemma emit_appends gs out :
  exists blocks display,
    foldl emit out gs = (out.1 ++ blocks, out.2 ++ display).
Proof.
  revert out. induction gs as [|g gs IH]; intros out; simpl.
  - exists [], []. rewrite !app_nil_r. by destruct out.
  - destruct (IH (emit out g)) as (blocks & display & ->).
    destruct g as [released|opener body|]; simpl.
    + exists blocks, (released ++ display). by rewrite <- app_assoc.
    + destruct (inspect body) as [parsed| |]; simpl; eauto.
      exists (parsed :: blocks), (placeholder (length out.1) ++ display).
      by rewrite <- !app_assoc.
    + eauto.
Qed.

(** The block at index [k] comes from an accepted delimited segment; the
    segments before it give the first [k] blocks, and its placeholder
    follows what they display. *)
Lemma replayed_block_origin gs out k block :
  (length out.1 <= k)%nat ->
  (foldl emit out gs).1 !! k = Some block ->
  exists gs1 opener body gs2 display,
    gs = gs1 ++ Fenced opener body :: gs2 /\
    inspect body = Accepted block /\
    length (foldl emit out gs1).1 = k /\
    (foldl emit out gs).2
    = (foldl emit out gs1).2 ++ placeholder k ++ display.
Proof.
  revert out. induction gs as [|g gs IH]; intros out Hk Hb; simpl in Hb.
  - apply lookup_lt_Some in Hb. lia.
  - destruct (decide (length (emit out g).1 <= k)%nat) as [Hle|Hgt].
    + destruct (IH _ Hle Hb) as (gs1 & o & b & gs2 & d & -> & Hi & Hl & Hd).
      by exists (g :: gs1), o, b, gs2, d.
    + destruct (emit_appends gs (emit out g)) as (blocks & display & He).
      simpl. rewrite He in Hb |- *. simpl in Hb |- *.
      destruct g as [released|opener body|]; simpl in Hgt, Hb, He |- *;
        try lia.
      destruct (inspect body) as [parsed| |] eqn:Hi; simpl in *; try lia.
      rewrite length_app in Hgt. simpl in Hgt.
      assert (Hlen : length out.1 = k) by lia.
      rewrite <- app_assoc in Hb.
      rewrite lookup_app_r in Hb by lia.
      replace (k - length out.1)%nat with 0%nat in Hb by lia.
      simpl in Hb. injection Hb as ->.
      exists [], opener, body, gs, display. simpl.
      split_and!; [done|done|done|]. by rewrite Hlen, <- app_assoc.
Qed.

(** Every completed block is a delimited block of the text, and its
    placeholder stands in [displayContent] right after what the text
    before that block displays. *)
Lemma block_has_its_placeholder
  (currentState : StreamingParserState) text k block :
  completedBlocks (processStreamingContent currentState text) !! k
  = Some block ->
  exists gs1 opener body after shownBefore shownAfter,
    text = sources gs1 ++ (opener ++ body ++ fence) ++ after /\
    isOpener opener /\
    inspect body = Accepted block /\
    replay gs1
    = (take k (completedBlocks (processStreamingContent currentState text)),
       shownBefore) /\
    displayContent (processStreamingContent currentState text)
    = shownBefore ++ placeholder k ++ shownAfter.
Proof.
  intros Hk.
  destruct (segmented_scan text) as (gs & tail & Hc & Hd & Hr & _).
  unfold StreamingParser.processStreamingContent, result in *. simpl in *.
  assert (Hb : (replay gs).1 !! k = Some block) by by rewrite Hr.
  destruct (replayed_block_origin gs ([], []) k block) as
    (gs1 & o & b & gs2 & d & -> & Hi & Hl & Hdisp);
    [simpl; lia|exact Hb|].
  fold (replay gs1) in Hl, Hdisp.
  fold (replay (gs1 ++ Fenced o b :: gs2)) in Hdisp.
  rewrite Hr in Hdisp. simpl in Hdisp.
  exists gs1, o, b, (sources gs2 ++ tail), (replay gs1).2, d.
  split_and!.
  - rewrite Hc, sources_app. unfold sources at 2. simpl.
    fold (sources gs2). by rewrite <- !app_assoc.
  - apply Forall_app in Hd as [_ Hd]. by inversion Hd.
  - done.
  - destruct (emit_appends (Fenced o b :: gs2) (replay gs1))
      as (blocks & display & He).
    rewrite <- replay_app, Hr in He. injection He as Hbl _.
    rewrite Hbl, take_app_length'; [|done]. by destruct (replay gs1).
  - done.
Qed.

(** C2, amended: when no backtick directly follows a closing fence and
    the text does not end exactly at a closing fence, every character of
    the text lies in exactly one segment or in the unfinished tail; the
    segments are characters released verbatim into [displayContent] and
    delimited blocks, each shown as its placeholder or, when its body
    lacks the minimal shape, as nothing; before a block is confirmed the
    tail is the returned [buffer], afterwards it is the opening delimiter,
    the returned [buffer], and the one or two closing backticks seen so
    far. *)
Theorem every_character_in_one_segment
  (currentState : StreamingParserState) text :
  swallows initial text = false ->
  I.stage (scan text) <> closing3 ->
  exists gs tail,
    text = sources gs ++ tail /\
    Forall delimited gs /\
    (Swallowed ∉ gs) /\
    replay gs = (completedBlocks (processStreamingContent currentState text),
                 displayContent (processStreamingContent currentState text)) /\
    if isInUICPBlock (processStreamingContent currentState text) then
      exists opener k,
        isOpener opener /\ (k <= 2)%nat /\
        tail = opener ++ buffer (processStreamingContent currentState text)
               ++ replicate k tick
    else tail = buffer (processStreamingContent currentState text).
Proof.
  intros Hsw Hend.
  destruct (segmented_scan text) as (gs & tail & Hc & Hd & Hr & Hp & Hs & _).
  exists gs, tail. split_and!; try done.
  - intros Hin. specialize (Hs Hin). congruence.
  - unfold StreamingParser.processStreamingContent, result; simpl.
    unfold pending in Hp.
    destruct (I.stage (scan text)) eqn:Hst; simpl in *.
    1-3: destruct Hp as (Ht & Hb & Hbc); by rewrite Hb, Hbc, Ht.
    1-5: destruct Hp as (_ & Hb & Hbc); by rewrite Hb, Hbc, app_nil_r.
    all: destruct Hp as ((o & Ho & Ht) & Hb); rewrite Hb; simpl.
    + exists o, 0%nat. by split_and!; [|lia|].
    + exists o, 1%nat. by split_and!; [|lia|].
    + exists o, 2%nat. by split_and!; [|lia|].
    + done.
Qed.

(** *** Texts without a block start *)

Lemma fenced_run_includes n rest :
  (3 <= n)%nat ->
  includes (replicate n tick ++ str "uicp" ++ rest) blockStart = true.
Proof.
  intros Hn. replace n with ((n - 3) + 3)%nat by lia.
  rewrite replicate_add, <- app_assoc.
  change (replicate 3 tick ++ str "uicp" ++ rest) with (blockStart ++ rest).
  apply includes_middle.
Qed.

Lemma opener_includes opener :
  isOpener opener -> includes opener blockStart = true.
Proof. intros (n & ws & Hn & _ & ->). by apply fenced_run_includes. Qed.

Lemma sources_elem g gs :
  g ∈ gs -> exists a b, sources gs = a ++ source g ++ b.
Proof.
  intros (l1 & l2 & ->)%list_elem_of_split.
  exists (sources l1), (sources l2).
  by rewrite sources_app.
Qed.

Lemma plain_replay gs out :
  Forall (fun g => exists released, g = Plain released) gs ->
  foldl emit out gs = (out.1, out.2 ++ sources gs).
Proof.
  revert out. induction gs as [|g gs IH]; intros [blocks display] Hall; simpl.
  - unfold sources; simpl. by rewrite app_nil_r.
  - inversion Hall as [|? ? [released ->] Hgs]; subst.
    rewrite (IH _ Hgs). simpl. unfold sources; simpl. by rewrite app_assoc.
Qed.

Lemma no_block_start_plain text gs tail :
  includes text blockStart = false ->
  text = sources gs ++ tail ->
  Forall delimited gs ->
  (Swallowed ∈ gs -> exists opener body, Fenced opener body ∈ gs) ->
  Forall (fun g => exists released, g = Plain released) gs.
Proof.
  intros Hno -> Hd Hfe.
  assert (Hnf : forall opener body, Fenced opener body ∉ gs).
  { intros opener body Hin.
    assert (Ho : isOpener opener)
      by apply (proj1 (Forall_forall _ _) Hd _ Hin).
    destruct (sources_elem _ _ Hin) as (a & b & Hab).
    rewrite Hab in Hno. simpl in Hno.
    rewrite <- !app_assoc in Hno.
    rewrite (includes_app _ a _ _ (opener_includes _ Ho)) in Hno. done. }
  apply Forall_forall. intros [released|opener body|] Hin.
  - by exists released.
  - by destruct (Hnf opener body).
  - destruct (Hfe Hin) as (opener & body & Hin'). by destruct (Hnf opener body).
Qed.

Lemma ends_in_fence_and n tag before :
  (3 <= n)%nat ->
  endsWith (before ++ replicate n tick ++ tag) (str "```" ++ tag) = true.
Proof.
  intros Hn. replace n with ((n - 3) + 3)%nat by lia.
  rewrite replicate_add, <- app_assoc.
  change (replicate 3 tick) with (str "```").
  by rewrite app_assoc, endsWith_app.
Qed.

(** Outside a block the tail is the buffer, and a pending tail ends in
    what may become a block start. *)
Lemma pending_before_block s tail :
  pending s tail ->
  includes tail blockStart = false ->
  I.buffer s ++ I.blockContent s = tail /\
  (I.stage s = none /\ tail = [] \/
   I.stage s <> none /\
   forall before, endsInBlockStart (before ++ tail) = true).
Proof.
  unfold pending, endsInBlockStart. intros Hp Hno.
  destruct (I.stage s) eqn:Hst; simpl in Hp.
  - destruct Hp as (-> & -> & ->). split; [done|by left].
  - destruct Hp as (-> & -> & ->). split; [done|right]. split; [done|].
    intros before. by rewrite endsWith_app.
  - destruct Hp as (-> & -> & ->). split; [done|right]. split; [done|].
    intros before. change [tick; tick] with ([tick] ++ [tick]).
    by rewrite app_assoc, endsWith_app.
  - destruct Hp as ((n & Hn & ->) & -> & ->).
    split; [by rewrite app_nil_r|right]. split; [done|].
    intros before. destruct n as [|n]; [lia|].
    by rewrite <- replicate_snoc, app_nil_r, !app_assoc, endsWith_app.
  - destruct Hp as ((n & Hn & ->) & -> & ->).
    split; [by rewrite app_nil_r|right]. split; [done|].
    intros before.
    pose proof (ends_in_fence_and n (str "u") before Hn) as E.
    change (str "```" ++ str "u") with (str "```u") in E.
    by rewrite E, !orb_true_r.
  - destruct Hp as ((n & Hn & ->) & -> & ->).
    split; [by rewrite app_nil_r|right]. split; [done|].
    intros before.
    pose proof (ends_in_fence_and n (str "ui") before Hn) as E.
    change (str "```" ++ str "ui") with (str "```ui") in E.
    by rewrite E, !orb_true_r.
  - destruct Hp as ((n & Hn & ->) & -> & ->).
    split; [by rewrite app_nil_r|right]. split; [done|].
    intros before.
    pose proof (ends_in_fence_and n (str "uic") before Hn) as E.
    change (str "```" ++ str "uic") with (str "```uic") in E.
    by rewrite E, !orb_true_r.
  - destruct Hp as ((n & Hn & ->) & _). simpl in Hno.
    rewrite <- (app_nil_r (str "uicp")) in Hno.
    by rewrite fenced_run_includes in Hno.
  - destruct Hp as ((o & Ho & ->) & _).
    apply not_includes_app_l in Hno. by rewrite opener_includes in Hno.
  - destruct Hp as ((o & Ho & ->) & _).
    apply not_includes_app_l in Hno. by rewrite opener_includes in Hno.
  - destruct Hp as ((o & Ho & ->) & _).
    apply not_includes_app_l in Hno. by rewrite opener_includes in Hno.
  - destruct Hp as ((o & Ho & ->) & _).
    apply not_includes_app_l in Hno. by rewrite opener_includes in Hno.
Qed.

(** C3, amended: for a text that contains no [```uicp], [completedBlocks]
    is empty and [displayContent] followed by the returned [buffer] is the
    text; when moreover the text does not end in what may become a block
    start (a backtick, or a fence followed by [u], [ui] or [uic]),
    [displayContent] is the text and [hasPendingBlock] is false. *)
Theorem text_without_block_start
  (currentState : StreamingParserState) text :
  includes text blockStart = false ->
  completedBlocks (processStreamingContent currentState text) = []
  /\ displayContent (processStreamingContent currentState text)
     ++ buffer (processStreamingContent currentState text) = text
  /\ (endsInBlockStart text = false ->
      displayContent (processStreamingContent currentState text) = text
      /\ hasPendingBlock (processStreamingContent currentState text) = false).
Proof.
  intros Hno.
  destruct (segmented_scan text) as (gs & tail & Hc & Hd & Hr & Hp & _ & Hfe).
  pose proof (no_block_start_plain _ _ _ Hno Hc Hd Hfe) as Hplain.
  pose proof (plain_replay gs ([], []) Hplain) as Hrp.
  fold (replay gs) in Hrp. rewrite Hr in Hrp. simpl in Hrp.
  injection Hrp as Hb Hdisp.
  assert (Htail : includes tail blockStart = false)
    by (rewrite Hc in Hno; by apply not_includes_app_r in Hno).
  destruct (pending_before_block _ _ Hp Htail) as [Hbuf Hend].
  unfold StreamingParser.processStreamingContent, result; simpl.
  rewrite Hb, Hdisp, Hbuf, <- Hc. split_and!; [done|done|].
  intros Hne. destruct Hend as [[Hst ->]|[_ Hend]].
  - rewrite Hst. by rewrite Hc, app_nil_r.
  - specialize (Hend (sources gs)). rewrite <- Hc in Hend. congruence.
Qed.

(** *** Inside a block *)

(** From a stage with nothing or only backticks pending, a block start
    and one whitespace character lead into the body. *)
Lemma scan_block_start s ws :
  beforeTag (I.stage s) = true ->
  opensBody ws = true ->
  I.stage (loop s (blockStart ++ [ws])) = in_block /\
  I.blockContent (loop s (blockStart ++ [ws])) = [] /\
  sameOutput s (loop s (blockStart ++ [ws])) /\
  I.buffer (loop s (blockStart ++ [ws])) = [].
Proof.
  intros Hst Hws. rewrite loop_snoc.
  destruct s as [st buf disp blocks bc con]. simpl in Hst.
  assert (Hu : exists buf',
            loop (I.mk st buf disp blocks bc con) blockStart
            = I.mk uicp buf' disp blocks bc con).
  { destruct st; try discriminate; eexists; reflexivity. }
  destruct Hu as [buf' ->].
  unfold StreamingParser.step; simpl. rewrite Hws. by repeat split.
Qed.

(** A body without a closing fence keeps the parser inside the block and
    leaves the output alone. *)
Lemma scan_body s body :
  inUICPBlock (I.stage s) = true ->
  includes (replicate (ticksSeen (I.stage s)) tick ++ body) fence = false ->
  inUICPBlock (I.stage (loop s body)) = true /\
  sameOutput s (loop s body).
Proof.
  revert s. induction body as [|c body IH]; intros s Hin Hno.
  - by repeat split.
  - destruct s as [st buf disp blocks bc con].
    change (loop (I.mk st buf disp blocks bc con) (c :: body))
      with (loop (step (I.mk st buf disp blocks bc con) c) body).
    assert (Hclosed : forall rest,
              includes (tick :: tick :: tick :: rest) fence = true)
      by (intros rest; apply (includes_middle [] fence rest)).
    assert (Hnext : forall s',
              inUICPBlock (I.stage s') = true ->
              includes (replicate (ticksSeen (I.stage s')) tick ++ body) fence
              = false ->
              sameOutput (I.mk st buf disp blocks bc con) s' ->
              inUICPBlock (I.stage (loop s' body)) = true /\
              sameOutput (I.mk st buf disp blocks bc con) (loop s' body)).
    { intros s' Hin' Hno' Hsame.
      destruct (IH s' Hin' Hno') as [H1 H2]. split; [done|].
      destruct Hsame as (E1 & E2 & E3), H2 as (F1 & F2 & F3).
      repeat split; congruence. }
    destruct st; try discriminate; unfold StreamingParser.step;
      cbn [I.stage ticksSeen] in Hno |- *.
    (* stage [closing3] is gone: its three backticks are a fence *)
    + (* in_block *)
      destruct (N.eqb_spec c tick) as [->|Hne].
      * apply Hnext; [done|exact Hno|by repeat split].
      * apply Hnext; [done| |by repeat split].
        by apply not_includes_cons in Hno.
    + (* closing1 *)
      destruct (N.eqb_spec c tick) as [->|Hne].
      * apply Hnext; [done|exact Hno|by repeat split].
      * apply Hnext; [done| |by repeat split].
        apply (not_includes_cons tick), not_includes_cons in Hno. exact Hno.
    + (* closing2 *)
      destruct (N.eqb_spec c tick) as [->|Hne].
      * exfalso. specialize (Hclosed body).
        change (replicate 2 tick ++ tick :: body)
          with (tick :: tick :: tick :: body) in Hno. congruence.
      * apply Hnext; [done| |by repeat split].
        apply (not_includes_cons tick), (not_includes_cons tick),
          not_includes_cons in Hno. exact Hno.
Qed.

(** C4, amended: when a block start begins where the parser has nothing
    or only backticks pending, and no three consecutive backticks occur in
    the body before the closing fence, then for every prefix of the text
    that ends within the body [hasPendingBlock] and [isInUICPBlock] are
    true, and [completedBlocks] and [displayContent] are those of the text
    before the block; and for every text [hasPendingBlock] is true exactly
    when the final stage is not [none]. *)
Theorem prefix_within_body_pending
  (currentState : StreamingParserState) before ws body1 body2 after text :
  text = before ++ blockStart ++ [ws] ++ (body1 ++ body2) ++ fence ++ after ->
  beforeTag (I.stage (scan before)) = true ->
  opensBody ws = true ->
  includes (body1 ++ body2) fence = false ->
  (let r := processStreamingContent currentState
              (before ++ blockStart ++ [ws] ++ body1) in
   (before ++ blockStart ++ [ws] ++ body1) `prefix_of` text /\
   hasPendingBlock r = true /\
   isInUICPBlock r = true /\
   completedBlocks r
   = completedBlocks (processStreamingContent currentState before) /\
   displayContent r
   = displayContent (processStreamingContent currentState before))
  /\ forall any,
       hasPendingBlock (processStreamingContent currentState any) = true
       <-> I.stage (scan any) <> none.
Proof.
  intros -> Hst Hws Hno. split.
  - destruct (scan_block_start (scan before) ws Hst Hws)
      as (Hin & _ & (Hb1 & Hd1 & _) & _).
    destruct (scan_body (loop (scan before) (blockStart ++ [ws])) body1)
      as (Hin2 & Hb2 & Hd2 & _).
    { by rewrite Hin. }
    { rewrite Hin. by apply not_includes_app_l in Hno. }
    assert (Hscan : scan (before ++ blockStart ++ [ws] ++ body1)
                    = loop (loop (scan before) (blockStart ++ [ws])) body1).
    { unfold StreamingParser.scan. by rewrite !app_assoc, !loop_app. }
    unfold StreamingParser.processStreamingContent, result.
    cbn [completedBlocks displayContent hasPendingBlock isInUICPBlock].
    rewrite Hscan. split_and!.
    + exists (body2 ++ fence ++ after). by rewrite <- !app_assoc.
    + by destruct (I.stage (loop (loop (scan before) (blockStart ++ [ws]))
                              body1)).
    + done.
    + congruence.
    + congruence.
  - intros any. unfold StreamingParser.processStreamingContent, result; simpl.
    destruct (I.stage (scan any)); simpl; split; done.
Qed.

(** *** Closing a block *)

(** A body without a closing fence is recorded as it is, and the buffer
    stays as it was. *)
Lemma scan_body_content s body :
  inUICPBlock (I.stage s) = true ->
  includes (replicate (ticksSeen (I.stage s)) tick ++ body) fence = false ->
  bodySeen (loop s body) = bodySeen s ++ body /\
  I.buffer (loop s body) = I.buffer s.
Proof.
  revert s. induction body as [|c body IH]; intros s Hin Hno.
  - unfold bodySeen. simpl. by rewrite app_nil_r.
  - destruct s as [st buf disp blocks bc con].
    change (loop (I.mk st buf disp blocks bc con) (c :: body))
      with (loop (step (I.mk st buf disp blocks bc con) c) body).
    assert (Hnext : forall s',
              inUICPBlock (I.stage s') = true ->
              includes (replicate (ticksSeen (I.stage s')) tick ++ body) fence
              = false ->
              bodySeen s' = bodySeen (I.mk st buf disp blocks bc con) ++ [c] ->
              I.buffer s' = buf ->
              bodySeen (loop s' body)
              = bodySeen (I.mk st buf disp blocks bc con) ++ c :: body /\
              I.buffer (loop s' body) = buf).
    { intros s' Hin' Hno' Hseen Hbuf.
      destruct (IH s' Hin' Hno') as [H1 H2].
      rewrite H1, H2, Hseen, <- app_assoc. done. }
    assert (Hseen : forall s',
              I.blockContent s' ++ replicate (ticksSeen (I.stage s')) tick
              = (bc ++ replicate (ticksSeen st) tick) ++ [c] ->
              bodySeen s' = bodySeen (I.mk st buf disp blocks bc con) ++ [c])
      by (intros s' H; exact H).
    destruct st; try discriminate; unfold StreamingParser.step;
      cbn [I.stage ticksSeen] in Hno, Hseen |- *.
    + destruct (N.eqb_spec c tick) as [->|Hne].
      * apply Hnext; [done|exact Hno| |done].
        apply Hseen. simpl. by rewrite app_nil_r.
      * apply Hnext; [done| | |done].
        -- by apply not_includes_cons in Hno.
        -- apply Hseen. simpl. by rewrite !app_nil_r.
    + destruct (N.eqb_spec c tick) as [->|Hne].
      * apply Hnext; [done|exact Hno| |done].
        apply Hseen. simpl. by rewrite <- app_assoc.
      * apply Hnext; [done| | |done].
        -- apply (not_includes_cons tick), not_includes_cons in Hno.
           exact Hno.
        -- apply Hseen. simpl. by rewrite app_nil_r, <- !app_assoc.
    + destruct (N.eqb_spec c tick) as [->|Hne].
      * exfalso.
        pose proof (includes_middle [] fence body) as Hclosed.
        change (replicate 2 tick ++ tick :: body)
          with ([] ++ fence ++ body) in Hno. congruence.
      * apply Hnext; [done| | |done].
        -- apply (not_includes_cons tick), (not_includes_cons tick),
             not_includes_cons in Hno. exact Hno.
        -- apply Hseen. simpl. by rewrite app_nil_r, <- !app_assoc.
Qed.

Lemma bodySeen_in_block s :
  I.stage s = in_block -> bodySeen s = I.blockContent s.
Proof. unfold bodySeen. intros ->. simpl. apply app_nil_r. Qed.

(** After the block start, a body and the first closing fence, the parser
    is in stage [closing3] with exactly that body, and has written
    nothing yet. *)
Lemma closing_fence_reached before ws body :
  beforeTag (I.stage (scan before)) = true ->
  opensBody ws = true ->
  includes (body ++ [tick; tick]) fence = false ->
  scan (before ++ blockStart ++ [ws] ++ body ++ fence)
  = I.mk closing3 [] (I.displayContent (scan before))
         (I.completedBlocks (scan before)) body (I.console (scan before)).
Proof.
  intros Hst Hws Hno.
  assert (Hscan : scan (before ++ blockStart ++ [ws] ++ body ++ fence)
                  = loop (loop (loop (scan before) (blockStart ++ [ws])) body)
                      fence).
  { unfold StreamingParser.scan.
    by rewrite (app_assoc blockStart), !loop_app. }
  rewrite Hscan. clear Hscan.
  pose proof (scan_block_start (scan before) ws Hst Hws) as H1.
  remember (loop (scan before) (blockStart ++ [ws])) as s1 eqn:E1. clear E1.
  destruct H1 as (Hin & Hbc & (Hb1 & Hd1 & Hc1) & Hbuf).
  assert (Hno1 : includes (replicate (ticksSeen (I.stage s1)) tick ++ body)
                   fence = false).
  { rewrite Hin. by apply not_includes_app_l in Hno. }
  assert (Hin1 : inUICPBlock (I.stage s1) = true) by by rewrite Hin.
  pose proof (scan_body s1 body Hin1 Hno1) as (Hin2 & Hb2 & Hd2 & Hc2).
  pose proof (scan_body_content s1 body Hin1 Hno1) as (Hseen & Hbuf2).
  rewrite (bodySeen_in_block s1 Hin), Hbc in Hseen. simpl in Hseen.
  remember (loop s1 body) as s2 eqn:E2. clear E2.
  rewrite Hb1 in Hb2. rewrite Hd1 in Hd2. rewrite Hc1 in Hc2.
  rewrite Hbuf in Hbuf2.
  destruct s2 as [st buf disp blocks bc con].
  unfold bodySeen in Hseen.
  cbn [I.stage I.buffer I.displayContent I.completedBlocks I.blockContent
       I.console] in Hin2, Hb2, Hd2, Hc2, Hseen, Hbuf2.
  subst buf disp blocks con.
  assert (Hfence : forall k, (1 <= k)%nat ->
            includes ((bc ++ replicate k tick) ++ [tick; tick]) fence = true).
  { intros k Hk. replace k with ((k - 1) + 1)%nat by lia.
    rewrite replicate_add, <- !app_assoc.
    change (replicate 1 tick ++ [tick; tick]) with (fence ++ []).
    rewrite (app_assoc bc). apply includes_middle. }
  destruct st; try discriminate;
    cbn [ticksSeen] in Hseen.
  - cbn [replicate] in Hseen. rewrite app_nil_r in Hseen. subst bc.
    reflexivity.
  - rewrite <- Hseen, (Hfence 1%nat) in Hno by lia. discriminate.
  - rewrite <- Hseen, (Hfence 2%nat) in Hno by lia. discriminate.
  - rewrite <- Hseen, (Hfence 3%nat) in Hno by lia. discriminate.
Qed.


(** X4: a delimited block whose body has the minimal shape, followed by a
    character other than a backtick: the parsed body is the next element
    of [completedBlocks], its placeholder and then the character are
    displayed, and the scan goes on from stage [none]. *)
Lemma accepted_block_in_text before ws body parsed c rest :
  beforeTag (I.stage (scan before)) = true ->
  opensBody ws = true ->
  includes (body ++ [tick; tick]) fence = false ->
  inspect body = Accepted parsed ->
  c <> tick ->
  scan (before ++ blockStart ++ [ws] ++ body ++ fence ++ c :: rest)
  = loop (I.mk none []
            (I.displayContent (scan before)
             ++ placeholder (length (I.completedBlocks (scan before)))
             ++ [c])
            (I.completedBlocks (scan before) ++ [parsed]) []
            (I.console (scan before)))
      rest.
Proof.
  intros Hst Hws Hno Hi Hc.
  pose proof (closing_fence_reached before ws body Hst Hws Hno) as Hclose.
  assert (Hscan :
    scan (before ++ blockStart ++ [ws] ++ body ++ fence ++ c :: rest)
    = loop (step (scan (before ++ blockStart ++ [ws] ++ body ++ fence)) c)
        rest).
  { unfold StreamingParser.scan.
    replace (before ++ blockStart ++ [ws] ++ body ++ fence ++ c :: rest)
      with ((before ++ blockStart ++ [ws] ++ body ++ fence) ++ c :: rest)
      by (by rewrite <- !app_assoc).
    by rewrite loop_app. }
  rewrite Hscan, Hclose.
  unfold StreamingParser.step, finish_block; simpl.
  destruct (N.eqb_spec c tick) as [|_]; [done|]. simpl. rewrite Hi. simpl.
  rewrite length_app. simpl.
  replace (length (I.completedBlocks (scan before)) + 1 - 1)%nat
    with (length (I.completedBlocks (scan before))) by lia.
  by rewrite <- app_assoc.
Qed.

(** *** Closing a block whose body lacks the minimal shape *)

(** The character consumed in stage [closing3] drops such a block: nothing
    is added to [completedBlocks], no placeholder and nothing of the body
    is displayed, one diagnostic is written, and the parser is back in
    stage [none] with empty buffers. *)
Lemma malformed_block_dropped s c :
  I.stage s = closing3 ->
  (forall parsed, inspect (I.blockContent s) <> Accepted parsed) ->
  I.completedBlocks (step s c) = I.completedBlocks s /\
  I.displayContent (step s c)
  = I.displayContent s ++ (if c =? tick then [] else [c]) /\
  (exists diagnostic, I.console (step s c) = I.console s ++ [diagnostic]) /\
  I.stage (step s c) = none /\
  I.buffer (step s c) = [] /\ I.blockContent (step s c) = [].
Proof.
  intros Hst Hbad. unfold StreamingParser.step, finish_block. rewrite Hst.
  destruct (inspect (I.blockContent s)) as [parsed|parsed|e] eqn:Hi.
  - by destruct (Hbad parsed).
  - destruct (c =? tick); simpl; rewrite ?app_nil_r; by eauto 10.
  - destruct (c =? tick); simpl; rewrite ?app_nil_r; by eauto 10.
Qed.

(** When nothing was completed, an accounted text is what is displayed
    followed by what is buffered. *)
Lemma emit_blocks_grow gs out :
  (length out.1 <= length (foldl emit out gs).1)%nat.
Proof.
  revert out. induction gs as [|g gs IH]; intros out; simpl; [done|].
  etrans; [|apply IH].
  destruct g; simpl; try done.
  destruct (inspect body); simpl; try done. rewrite length_app. lia.
Qed.

Lemma shown_without_blocks gs out :
  Forall (shown JSON_parse) gs ->
  (foldl emit out gs).1 = out.1 ->
  (foldl emit out gs).2 = out.2 ++ sources gs.
Proof.
  revert out. induction gs as [|g gs IH]; intros out Hall Hb; simpl.
  - unfold sources; simpl. by rewrite app_nil_r.
  - inversion Hall as [|? ? Hg Hgs]; subst. simpl in Hb.
    destruct g as [released|opener body|]; simpl in *.
    + rewrite (IH _ Hgs Hb). simpl. unfold sources; simpl.
      by rewrite app_assoc.
    + destruct Hg as (_ & parsed & Hi). rewrite Hi in Hb |- *.
      pose proof (emit_blocks_grow gs
                    (out.1 ++ [parsed], out.2 ++ placeholder (length out.1)))
        as Hlen.
      rewrite Hb in Hlen. simpl in Hlen. rewrite length_app in Hlen.
      simpl in Hlen. lia.
    + done.
Qed.

Lemma accounted_without_blocks text r :
  accounted JSON_parse text r ->
  completedBlocks r = [] ->
  text = displayContent r ++ buffer r.
Proof.
  intros (gs & Hall & -> & Hr) Hb.
  pose proof (shown_without_blocks gs ([], []) Hall) as H.
  fold (replay gs) in H. rewrite Hr in H. simpl in H.
  by rewrite (H Hb).
Qed.

End StreamingParserProperties.

(** ** The parser on concrete texts, with the reference [JSON.parse] *)

Section StreamingParserScenarios.

Import StreamingParser.

(** C1, evaluated where the text ends exactly at the third closing
    backtick: [completedBlocks] is empty, nothing is displayed, and the
    result is still pending. The block is only completed by one more
    character. *)
Theorem block_at_end_of_text_not_completed :
  (forall JSON_parse currentState,
     let r := processStreamingContent JSON_parse currentState block_X in
     completedBlocks r = [] /\ displayContent r = [] /\
     hasPendingBlock r = true /\ isInUICPBlock r = true)
  /\ (let r := parseStreamingContent Json.parse (block_X ++ str " ") in
      completedBlocks r = [parsed_X] /\
      displayContent r = str "__UICP_BLOCK_0__ " /\
      hasPendingBlock r = false).
Proof. split; [intros JSON_parse currentState|]; vm_compute; done. Qed.

(** C6, evaluated where it fails.  A text that ends at the closing fence
    of a block whose body is not JSON: no diagnostic has been written.
    The same block directly followed by a well-formed block: the first
    backtick of the second block is consumed with the first one, and the
    second block is displayed raw instead of being extracted; with a
    space between the two it is extracted. *)
Theorem malformed_block_at_end_or_before_backtick :
  (forall JSON_parse,
     I.console (scan JSON_parse not_json) = [] /\
     I.stage (scan JSON_parse not_json) = closing3)
  /\ (let r := parseStreamingContent Json.parse
                 (not_json ++ block_X ++ str " ") in
      completedBlocks r = [] /\
      displayContent r = quoted "``uicp
{'uid':'X','data':{'a':1}}
``` ")
  /\ (let r := parseStreamingContent Json.parse
                 (not_json ++ str " " ++ block_X ++ str " ") in
      completedBlocks r = [parsed_X] /\
      displayContent r = str " __UICP_BLOCK_0__ ").
Proof. split_and!; [intros JSON_parse|..]; vm_compute; done. Qed.

(** C3 as stated fails: a text that ends in a backtick contains no
    [```uicp], yet the backtick is withheld and the result is pending. *)
Lemma trailing_backtick_is_pending :
  ~ (includes (str "Hello `") blockStart = false ->
     let r := parseStreamingContent Json.parse (str "Hello `") in
     displayContent r = str "Hello `" /\
     completedBlocks r = [] /\
     hasPendingBlock r = false).
Proof.
  intros H. destruct H as (_ & _ & H); [by vm_compute|].
  vm_compute in H. discriminate.
Qed.

(** A text with inline code and no block start is displayed whole. *)
Lemma text_without_block_start_witness :
  let r := parseStreamingContent Json.parse (str "Hello `world`!") in
  includes (str "Hello `world`!") blockStart = false /\
  endsInBlockStart (str "Hello `world`!") = false /\
  completedBlocks r = [] /\
  displayContent r ++ buffer r = str "Hello `world`!" /\
  displayContent r = str "Hello `world`!" /\
  hasPendingBlock r = false.
Proof.
  intros r.
  assert (Hno : includes (str "Hello `world`!") blockStart = false)
    by (vm_compute; reflexivity).
  assert (Hend : endsInBlockStart (str "Hello `world`!") = false)
    by (vm_compute; reflexivity).
  destruct (text_without_block_start Json.parse createStreamingParserState
              (str "Hello `world`!") Hno) as (H1 & H2 & H3).
  destruct (H3 Hend) as [H4 H5].
  split_and!; [exact Hno|exact Hend|exact H1|exact H2|exact H4|exact H5].
Defined.

(** C4 as stated fails.  A block whose payload holds three backticks in a
    string is complete and has the minimal shape, but a prefix that ends
    after those backticks is not pending: the body was closed there and
    dropped.  And a block that starts right after [```u] is not
    recognised: a prefix that ends in its body is not pending either. *)
Lemma prefix_within_body_not_pending :
  (let body := quoted "{'uid':'X','data':{'a':'```js'}}
" in
   let body1 := quoted "{'uid':'X','data':{'a':'```j" in
   body1 `prefix_of` body /\
   (exists parsed, inspect Json.parse body = Accepted parsed) /\
   hasPendingBlock
     (parseStreamingContent Json.parse (blockStart ++ [code "010"] ++ body1))
   = false)
  /\ hasPendingBlock
       (parseStreamingContent Json.parse
          (str "```u" ++ blockStart ++ [code "010"] ++ quoted "{'uid':"))
     = false.
Proof.
  split; [|by vm_compute]. split_and!.
  - by exists (quoted "s'}}
").
  - eexists. vm_compute. reflexivity.
  - by vm_compute.
Qed.

(** A prefix that stops in the middle of the body of the scenario's
    block. *)
Lemma prefix_within_body_pending_witness :
  let before := str "Hello " in
  let body1 := quoted "{'uid':'X'," in
  let body2 := quoted "'data':{'a':1}}
" in
  let r := parseStreamingContent Json.parse
             (before ++ blockStart ++ [code "010"] ++ body1) in
  beforeTag (I.stage (scan Json.parse before)) = true /\
  opensBody (code "010") = true /\
  includes (body1 ++ body2) fence = false /\
  hasPendingBlock r = true /\
  isInUICPBlock r = true /\
  completedBlocks r = [] /\
  displayContent r = str "Hello ".
Proof.
  intros before body1 body2 r.
  assert (H1 : beforeTag (I.stage (scan Json.parse before)) = true)
    by (vm_compute; reflexivity).
  assert (H2 : opensBody (code "010") = true) by (vm_compute; reflexivity).
  assert (H3 : includes (body1 ++ body2) fence = false)
    by (vm_compute; reflexivity).
  destruct (prefix_within_body_pending Json.parse createStreamingParserState
              before (code "010") body1 body2 (str " world") _
              eq_refl H1 H2 H3) as [(_ & H4 & H5 & H6 & H7) _].
  split_and!; [exact H1|exact H2|exact H3|exact H4|exact H5|exact H6
              |exact H7].
Defined.

(** The scenario text has no backtick after its closing fence and goes
    on after it. *)
Lemma every_character_in_one_segment_witness :
  swallows Json.parse initial (str "Hello " ++ block_X ++ str " world")
  = false /\
  I.stage (scan Json.parse (str "Hello " ++ block_X ++ str " world"))
  <> closing3 /\
  exists gs tail,
    str "Hello " ++ block_X ++ str " world" = sources gs ++ tail /\
    Forall delimited gs /\
    (Swallowed ∉ gs) /\
    replay Json.parse gs = ([parsed_X], str "Hello __UICP_BLOCK_0__ world") /\
    tail = [].
Proof.
  assert (H : swallows Json.parse initial
                (str "Hello " ++ block_X ++ str " world") = false)
    by (vm_compute; reflexivity).
  assert (H0 : I.stage (scan Json.parse
                          (str "Hello " ++ block_X ++ str " world"))
               <> closing3)
    by (vm_compute; discriminate).
  split; [exact H|]. split; [exact H0|].
  destruct (every_character_in_one_segment Json.parse
              createStreamingParserState _ H H0)
    as (gs & tail & H1 & H2 & H3 & H4 & H5).
  exists gs, tail.
  split_and!; [exact H1|exact H2|exact H3|exact H4|exact H5].
Defined.

(** C2 as stated fails: in a text that stops inside a block body, the
    opening delimiter is neither displayed nor part of a completed block
    nor in the returned buffer; and the characters of a block whose body
    is not JSON are in none of the three either. *)
Lemma characters_unaccounted :
  ~ accounted Json.parse (str "```uicp
ab") (parseStreamingContent Json.parse (str "```uicp
ab"))
  /\ ~ accounted Json.parse (str "```uicp x``` ")
         (parseStreamingContent Json.parse (str "```uicp x``` ")).
Proof.
  split; intros H; eapply accounted_without_blocks in H;
    try (vm_compute; reflexivity); vm_compute in H; discriminate.
Qed.

(** C7: the scenario; and in general the text falls into segments in
    order, each accepted block adding its parsed body to [completedBlocks]
    and, at that point of [displayContent], the placeholder numbered by
    its position in [completedBlocks]: the block at index [k] is a
    delimited block of the text, the text before it yields the first [k]
    blocks, and [__UICP_BLOCK_k__] follows what that text displays. *)
Theorem blocks_in_closing_order_with_placeholders :
  parseStreamingContent Json.parse (str "Hello " ++ block_X ++ str " world")
  = {| displayContent := str "Hello __UICP_BLOCK_0__ world";
       hasPendingBlock := false;
       isInUICPBlock := false;
       completedBlocks := [parsed_X];
       buffer := [] |}
  /\ (forall JSON_parse currentState text,
        exists gs tail,
          text = sources gs ++ tail /\
          Forall delimited gs /\
          replay JSON_parse gs
          = (completedBlocks
               (processStreamingContent JSON_parse currentState text),
             displayContent
               (processStreamingContent JSON_parse currentState text)))
  /\ (forall JSON_parse currentState text k block,
        completedBlocks
          (processStreamingContent JSON_parse currentState text) !! k
        = Some block ->
        exists gs1 opener body after shownBefore shownAfter,
          text = sources gs1 ++ (opener ++ body ++ fence) ++ after /\
          isOpener opener /\
          inspect JSON_parse body = Accepted block /\
          replay JSON_parse gs1
          = (take k
               (completedBlocks
                  (processStreamingContent JSON_parse currentState text)),
             shownBefore) /\
          displayContent
            (processStreamingContent JSON_parse currentState text)
          = shownBefore ++ placeholder k ++ shownAfter).
Proof.
  split_and!; [vm_compute; done| |].
  - intros. apply blocks_and_placeholders_in_order.
  - intros. by apply block_has_its_placeholder.
Qed.

(** The first block of the scenario is found where the theorem says. *)
Lemma blocks_in_closing_order_with_placeholders_witness :
  let text := str "Hello " ++ block_X ++ str " world" in
  completedBlocks (parseStreamingContent Json.parse text) !! 0%nat
  = Some parsed_X /\
  exists gs1 opener body after shownBefore shownAfter,
    text = sources gs1 ++ (opener ++ body ++ fence) ++ after /\
    isOpener opener /\
    inspect Json.parse body = Accepted parsed_X /\
    replay Json.parse gs1 = ([], shownBefore) /\
    str "Hello __UICP_BLOCK_0__ world"
    = shownBefore ++ placeholder 0 ++ shownAfter.
Proof.
  intros text.
  assert (H : completedBlocks (parseStreamingContent Json.parse text) !! 0%nat
              = Some parsed_X) by reflexivity.
  split; [exact H|].
  destruct blocks_in_closing_order_with_placeholders as (_ & _ & Hk).
  destruct (Hk Json.parse createStreamingParserState text 0%nat parsed_X H)
    as (gs1 & o & b & after & d1 & d2 & H1 & H2 & H3 & H4 & H5).
  exists gs1, o, b, after, d1, d2.
  split_and!; [exact H1|exact H2|exact H3|exact H4|exact H5].
Defined.

End StreamingParserScenarios.

(** * Properties of the definitions cache *)

Section DefinitionsLoaderProperties.

Import DefinitionsLoader.

Context {Definitions : Type}.

#[local] Abbreviation World := (World Definitions).
#[local] Abbreviation loadDefinitionsWithCache :=
  (loadDefinitionsWithCache Definitions).

(** The two outcomes of a call with a string source. *)
Lemma cached_or_loaded (w : World) s ttl now outcome later :
  let call := loadDefinitionsWithCache w (uri s) (Some ttl) now outcome later in
  (exists entry,
     definitionsCache w !! s = Some entry /\
     (now - timestamp entry < ttl)%Z /\
     call = (resolved (data entry), w))
  \/
  (~ (exists entry,
        definitionsCache w !! s = Some entry /\
        (now - timestamp entry < ttl)%Z) /\
   loads call.2 = loads w ++ [s] /\
   call.1 = outcome /\
   definitionsCache call.2
   = match outcome with
     | resolved d =>
         <[s := {| data := d; timestamp := later |}]> (definitionsCache w)
     | rejected _ => definitionsCache w
     end).
Proof.
  unfold DefinitionsLoader.loadDefinitionsWithCache, fresh; simpl.
  destruct (definitionsCache w !! s) as [entry|] eqn:Hc.
  - destruct (Z.ltb_spec (now - timestamp entry) ttl) as [Hlt|Hge].
    + left. by exists entry.
    + right. split.
      * intros (e & [= <-] & Hlt). lia.
      * by destruct outcome.
  - right. split.
    + by intros (e & [=] & _).
    + by destruct outcome.
Qed.

(** A call that nothing interrupts is its two halves, one after the
    other. *)
Lemma call_is_its_two_halves (w : World) source ttl now outcome later :
  loadDefinitionsWithCache w source ttl now outcome later
  = match beforeAwait Definitions w source ttl now with
    | (answered d, w') => (resolved d, w')
    | (awaiting s, w') => afterAwait Definitions w' s outcome later
    end.
Proof.
  unfold DefinitionsLoader.loadDefinitionsWithCache, beforeAwait, afterAwait.
  destruct source as [s|d]; [|done]. simpl.
  destruct (fresh _ _ _ _); [done|]. by destruct outcome.
Qed.

(** C8: for calls that do not overlap (a call is run to its end before
    the next begins): with a string source, the cached definitions are
    returned, with no load, exactly when the cache holds an entry for
    that source whose age is strictly below [ttl]; otherwise a load is
    issued and, when it resolves, its result is stored with the time of
    storing.  With [ttl = 0] and no entry stamped in the future, every
    call loads.  On a cache with no entry for the source and with a first
    load that resolves, a second call with [ttl = 1000] less than 1000ms
    after the first result was stored issues no load, and a third call
    1000ms or more after it issues a second. *)
Theorem cache_hit_exactly_when_fresh :
  (forall (w : World) s ttl now outcome later,
     let call :=
       loadDefinitionsWithCache w (uri s) (Some ttl) now outcome later in
     ((exists entry,
         definitionsCache w !! s = Some entry /\
         (now - timestamp entry < ttl)%Z)
      <-> loads call.2 = loads w)
     /\ (forall entry,
           definitionsCache w !! s = Some entry ->
           (now - timestamp entry < ttl)%Z ->
           call = (resolved (data entry), w))
     /\ (~ (exists entry,
              definitionsCache w !! s = Some entry /\
              (now - timestamp entry < ttl)%Z) ->
         loads call.2 = loads w ++ [s] /\
         call.1 = outcome /\
         forall d, outcome = resolved d ->
           definitionsCache call.2
           = <[s := {| data := d; timestamp := later |}]>
               (definitionsCache w)))
  /\ (forall (w : World) s now outcome later,
        (forall entry,
           definitionsCache w !! s = Some entry ->
           (timestamp entry <= now)%Z) ->
        loads (loadDefinitionsWithCache w (uri s) (Some 0%Z) now outcome
                 later).2
        = loads w ++ [s])
  /\ (forall (w : World) s d now1 stored now2 outcome2 later2
             now3 outcome3 later3,
        definitionsCache w !! s = None ->
        (now2 - stored < 1000)%Z ->
        (1000 <= now3 - stored)%Z ->
        let call1 :=
          loadDefinitionsWithCache w (uri s) (Some 1000%Z) now1 (resolved d)
            stored in
        let call2 :=
          loadDefinitionsWithCache call1.2 (uri s) (Some 1000%Z) now2
            outcome2 later2 in
        let call3 :=
          loadDefinitionsWithCache call2.2 (uri s) (Some 1000%Z) now3
            outcome3 later3 in
        call2.1 = resolved d /\
        loads call2.2 = loads w ++ [s] /\
        loads call3.2 = loads w ++ [s; s]).
Proof.
  split_and!.
  - intros w s ttl now outcome later call.
    destruct (cached_or_loaded w s ttl now outcome later)
      as [(entry & Hc & Hlt & Hcall)|(Hno & Hl & Hr & Hd)];
      fold call in Hcall || fold call in Hl, Hr, Hd.
    + split_and!.
      * split; [intros _; by rewrite Hcall|intros _; by exists entry].
      * intros e He _. rewrite Hc in He. by injection He as <-.
      * intros Hno. destruct Hno. by exists entry.
    + split_and!.
      * split; [done|]. intros Heq. rewrite Hl in Heq.
        apply (f_equal length) in Heq. rewrite length_app in Heq.
        simpl in Heq. lia.
      * intros e He Hlt. destruct Hno. by exists e.
      * intros _. split_and!; [done|done|]. intros d ->. exact Hd.
  - intros w s now outcome later Hpast.
    destruct (cached_or_loaded w s 0%Z now outcome later)
      as [(entry & Hc & Hlt & _)|(_ & Hl & _)]; [|done].
    specialize (Hpast _ Hc). lia.
  - intros w s d now1 stored now2 outcome2 later2 now3 outcome3 later3
      Hnone Hlt Hge call1 call2 call3.
    assert (H1 : call1
                 = (resolved d,
                    {| definitionsCache :=
                         <[s := {| data := d; timestamp := stored |}]>
                           (definitionsCache w);
                       loads := loads w ++ [s] |})).
    { unfold call1, DefinitionsLoader.loadDefinitionsWithCache, fresh; simpl.
      by rewrite Hnone. }
    assert (H2 : call2 = (resolved d, call1.2)).
    { unfold call2, DefinitionsLoader.loadDefinitionsWithCache, fresh.
      rewrite H1; simpl. rewrite lookup_insert_eq; simpl.
      by destruct (Z.ltb_spec (now2 - stored) 1000); [|lia]. }
    assert (H3 : loads call3.2 = loads call2.2 ++ [s]).
    { unfold call3, DefinitionsLoader.loadDefinitionsWithCache, fresh.
      rewrite H2, H1; simpl. rewrite lookup_insert_eq; simpl.
      destruct (Z.ltb_spec (now3 - stored) 1000); [lia|].
      by destruct outcome3. }
    rewrite H3, H2, H1; simpl. split_and!; [done|done|].
    by rewrite <- app_assoc.
Qed.

End DefinitionsLoaderProperties.

(** * Properties of the component loader *)

Section LoaderProperties.

Import Loader.

Context {Value : Type}.
Variable truthy : Value -> bool.
Variable isFunctionOrObject : Value -> bool.
Variable import : jstring -> Module_ Value + jstring.

#[local] Abbreviation World := (World Value).
#[local] Abbreviation loadComponent :=
  (loadComponent Value truthy isFunctionOrObject import).
#[local] Abbreviation try_body :=
  (try_body Value truthy isFunctionOrObject import).

(** A registered handle is returned as it is; nothing is imported. *)
Lemma loadComponent_registered (w : World) uid componentPath basePath h :
  componentRegistry w !! uid = Some h ->
  truthy h = true ->
  loadComponent w uid componentPath basePath = (Returned (Some h), w).
Proof.
  intros Hreg Ht. unfold Loader.loadComponent, getComponent.
  by rewrite Hreg; simpl; rewrite Ht.
Qed.

(** What the [try] block leaves behind. *)
Lemma try_body_outcome (w : World) uid componentPath basePath :
  exists fullPath,
    imported (try_body w uid componentPath basePath).2
    = imported w ++ [fullPath] /\
    ((exists c,
        (try_body w uid componentPath basePath).1 = Returned (Some c) /\
        truthy c = true /\
        componentRegistry (try_body w uid componentPath basePath).2
        = <[uid := c]> (componentRegistry w) /\
        console (try_body w uid componentPath basePath).2 = console w)
     \/
     (((try_body w uid componentPath basePath).1 = Returned None /\
       console (try_body w uid componentPath basePath).2
       = console w ++ [no_valid_component_export fullPath])
      \/ (exists error,
            (try_body w uid componentPath basePath).1 = Thrown error /\
            console (try_body w uid componentPath basePath).2 = console w))
     /\ componentRegistry (try_body w uid componentPath basePath).2
        = componentRegistry w).
Proof.
  unfold Loader.try_body.
  set (fullPath := fullPathOf componentPath basePath).
  exists fullPath.
  destruct (import fullPath) as [module|error]; simpl.
  - match goal with
    | |- context [match ?x with Some _ => _ | None => _ end] =>
        destruct x as [c|]
    end.
    + destruct (truthy c) eqn:Ht; simpl.
      * split; [done|]. left. by exists c.
      * split; [done|]. right. split; [by left|done].
    + split; [done|]. right. split; [by left|done].
  - split; [done|]. right. split; [|done]. right. by exists error.
Qed.

(** C9: [loadComponent] always returns, never throws.  A registered handle
    is returned without any import; on a miss the module is imported; a
    component that is returned is truthy and registered under [uid], so
    that the next call returns it from the registry; a [null] result
    comes with one more line on the console and an unchanged registry;
    and a rejected import is such a [null] result, logged. *)
Theorem loadComponent_never_throws (w : World) uid componentPath basePath :
  let call := loadComponent w uid componentPath basePath in
  (exists r, call.1 = Returned r)
  /\ (forall h,
        componentRegistry w !! uid = Some h -> truthy h = true ->
        call = (Returned (Some h), w))
  /\ (componentRegistry w !! uid = None ->
      exists fullPath, imported call.2 = imported w ++ [fullPath])
  /\ (forall c,
        call.1 = Returned (Some c) ->
        truthy c = true /\
        componentRegistry call.2 !! uid = Some c /\
        forall componentPath' basePath',
          loadComponent call.2 uid componentPath' basePath'
          = (Returned (Some c), call.2))
  /\ (call.1 = Returned None ->
      (exists line, console call.2 = console w ++ [line]) /\
      componentRegistry call.2 = componentRegistry w)
  /\ (forall error,
        componentRegistry w !! uid = None ->
        import (fullPathOf componentPath
                  (default (str "/components/uicp") basePath))
        = inr error ->
        call.1 = Returned None /\
        console call.2
        = console w ++ [failed_to_load_component uid componentPath error]).
Proof.
  intros call.
  assert (Hhit : forall h,
            componentRegistry w !! uid = Some h -> truthy h = true ->
            call = (Returned (Some h), w))
    by (intros h Hreg Ht; by apply loadComponent_registered).
  assert (Hcases :
    (exists h, componentRegistry w !! uid = Some h /\ truthy h = true /\
               call = (Returned (Some h), w))
    \/ (truthy' Value truthy (componentRegistry w !! uid) = false /\
        exists fullPath,
          imported call.2 = imported w ++ [fullPath] /\
          ((exists c, call.1 = Returned (Some c) /\ truthy c = true /\
                      componentRegistry call.2
                      = <[uid := c]> (componentRegistry w))
           \/ (call.1 = Returned None /\
               (exists line, console call.2 = console w ++ [line]) /\
               componentRegistry call.2 = componentRegistry w)))).
  { destruct (truthy' Value truthy (componentRegistry w !! uid)) eqn:Hc.
    - left. destruct (componentRegistry w !! uid) as [h|] eqn:Hreg; [|done].
      exists h. split_and!; [done|done|by apply Hhit].
    - right. split; [done|].
      unfold call, Loader.loadComponent, getComponent. rewrite Hc.
      destruct (try_body_outcome w uid componentPath
                  (default (str "/components/uicp") basePath))
        as (fullPath & Hi & [(c & Hr & Ht & Hreg & _)|[[[Hr Hl]|(e & Hr & Hl)] Hreg]]);
        exists fullPath;
        destruct (try_body w uid componentPath
                    (default (str "/components/uicp") basePath))
          as [r w']; simpl in *; subst r; simpl.
      + split; [done|]. left. by exists c.
      + split; [done|]. right. split_and!; [done| |done]. by eexists.
      + split; [done|]. right. split_and!; [done| |done].
        rewrite Hl. by eexists. }
  split_and!.
  - destruct Hcases as [(h & _ & _ & ->)|(_ & _ & _ & [(c & -> & _)|(-> & _)])];
      by eexists.
  - exact Hhit.
  - intros Hnone.
    destruct Hcases as [(h & Hreg & _)|(_ & fullPath & Hi & _)];
      [congruence|by exists fullPath].
  - intros c Hr.
    assert (Hc : truthy c = true /\ componentRegistry call.2 !! uid = Some c).
    { destruct Hcases
        as [(h & Hreg & Ht & Hcall)|(_ & _ & _ & [(c' & Hr' & Ht & Hreg)|(Hr' & _)])].
      - rewrite Hcall in Hr |- *. simpl in *. by simplify_eq.
      - rewrite Hr' in Hr. simplify_eq. split; [done|].
        rewrite Hreg. apply lookup_insert_eq.
      - congruence. }
    destruct Hc as [Ht Hreg]. split_and!; [done|done|].
    intros componentPath' basePath'. by apply loadComponent_registered.
  - intros Hr.
    destruct Hcases
      as [(h & _ & _ & Hcall)|(_ & _ & _ & [(c & Hr' & _)|(_ & Hl & Hreg)])].
    + rewrite Hcall in Hr. discriminate.
    + congruence.
    + done.
  - intros error Hnone Himport.
    unfold call, Loader.loadComponent, getComponent, Loader.try_body.
    rewrite Hnone. simpl. by rewrite Himport.
Qed.

End LoaderProperties.

(** * The cache and the loader on concrete calls *)

Section LoaderScenarios.

(** C8 as stated fails.  With [ttl = 0] an entry stamped later than the
    clock reading is served without a load.  Two calls with [ttl = 1000]
    ten milliseconds apart both load when the first load is rejected, and
    both load when the second begins before the first has stored its
    result.  And a third call 1200ms after the first is still served from
    the cache when the first result was stored only at time 500. *)
Lemma future_entry_served_and_loads_repeated :
  let empty := {| DefinitionsLoader.definitionsCache := ∅;
                  DefinitionsLoader.loads := [] |} in
  (let w := {| DefinitionsLoader.definitionsCache :=
                 {[ definitions_json :=
                      {| DefinitionsLoader.data := 7%nat;
                         DefinitionsLoader.timestamp := 10%Z |} ]};
               DefinitionsLoader.loads := [definitions_json] |} in
   DefinitionsLoader.loadDefinitionsWithCache nat w
     (DefinitionsLoader.uri definitions_json) (Some 0%Z) 5%Z
     (DefinitionsLoader.resolved 8%nat) 6%Z
   = (DefinitionsLoader.resolved 7%nat, w))
  /\ (let call1 :=
        DefinitionsLoader.loadDefinitionsWithCache nat empty
          (DefinitionsLoader.uri definitions_json) (Some 1000%Z) 0%Z
          (DefinitionsLoader.rejected (str "boom")) 5%Z in
      let call2 :=
        DefinitionsLoader.loadDefinitionsWithCache nat call1.2
          (DefinitionsLoader.uri definitions_json) (Some 1000%Z) 10%Z
          (DefinitionsLoader.resolved 7%nat) 15%Z in
      DefinitionsLoader.loads call2.2 = [definitions_json; definitions_json])
  /\ (let begun1 :=
        DefinitionsLoader.beforeAwait nat empty
          (DefinitionsLoader.uri definitions_json) (Some 1000%Z) 0%Z in
      let begun2 :=
        DefinitionsLoader.beforeAwait nat begun1.2
          (DefinitionsLoader.uri definitions_json) (Some 1000%Z) 10%Z in
      let ended1 :=
        DefinitionsLoader.afterAwait nat begun2.2 definitions_json
          (DefinitionsLoader.resolved 7%nat) 20%Z in
      let ended2 :=
        DefinitionsLoader.afterAwait nat ended1.2 definitions_json
          (DefinitionsLoader.resolved 7%nat) 30%Z in
      begun1.1 = DefinitionsLoader.awaiting definitions_json /\
      begun2.1 = DefinitionsLoader.awaiting definitions_json /\
      DefinitionsLoader.loads ended2.2 = [definitions_json; definitions_json])
  /\ (let call1 :=
        DefinitionsLoader.loadDefinitionsWithCache nat empty
          (DefinitionsLoader.uri definitions_json) (Some 1000%Z) 0%Z
          (DefinitionsLoader.resolved 7%nat) 500%Z in
      let call3 :=
        DefinitionsLoader.loadDefinitionsWithCache nat call1.2
          (DefinitionsLoader.uri definitions_json) (Some 1000%Z) 1200%Z
          (DefinitionsLoader.resolved 8%nat) 1700%Z in
      call3.1 = DefinitionsLoader.resolved 7%nat /\
      DefinitionsLoader.loads call3.2 = [definitions_json]).
Proof. cbv zeta. split_and!; reflexivity. Qed.

(** Three calls for [./definitions.json] with [ttl = 1000] on an empty
    cache: a load stored at time 5, a call at time 900, a call at 1005. *)
Lemma cache_hit_exactly_when_fresh_witness :
  let w := {| DefinitionsLoader.definitionsCache := ∅;
              DefinitionsLoader.loads := [] |} in
  let call1 :=
    DefinitionsLoader.loadDefinitionsWithCache nat w
      (DefinitionsLoader.uri definitions_json) (Some 1000%Z) 0%Z
      (DefinitionsLoader.resolved 7%nat) 5%Z in
  let call2 :=
    DefinitionsLoader.loadDefinitionsWithCache nat call1.2
      (DefinitionsLoader.uri definitions_json) (Some 1000%Z) 900%Z
      (DefinitionsLoader.resolved 8%nat) 901%Z in
  let call3 :=
    DefinitionsLoader.loadDefinitionsWithCache nat call2.2
      (DefinitionsLoader.uri definitions_json) (Some 1000%Z) 1005%Z
      (DefinitionsLoader.resolved 9%nat) 1006%Z in
  DefinitionsLoader.definitionsCache w !! definitions_json = None /\
  (900 - 5 < 1000)%Z /\
  (1000 <= 1005 - 5)%Z /\
  call2.1 = DefinitionsLoader.resolved 7%nat /\
  DefinitionsLoader.loads call2.2 = [definitions_json] /\
  DefinitionsLoader.loads call3.2 = [definitions_json; definitions_json].
Proof.
  intros w call1 call2 call3.
  assert (H1 : DefinitionsLoader.definitionsCache w !! definitions_json
               = None) by apply lookup_empty.
  assert (H2 : (900 - 5 < 1000)%Z) by lia.
  assert (H3 : (1000 <= 1005 - 5)%Z) by lia.
  destruct (@cache_hit_exactly_when_fresh nat) as (_ & _ & H).
  destruct (H w definitions_json 7%nat 0%Z 5%Z 900%Z
              (DefinitionsLoader.resolved 8%nat) 901%Z 1005%Z
              (DefinitionsLoader.resolved 9%nat) 1006%Z H1 H2 H3)
    as (H4 & H5 & H6).
  split_and!; [exact H1|exact H2|exact H3|exact H4|exact H5|exact H6].
Defined.

(** A first call imports [Card.tsx] and registers its default export; a
    second call returns it from the registry. *)
Lemma loadComponent_never_throws_witness :
  let truthy := fun n : nat => negb (Nat.eqb n 0) in
  let w := {| Loader.componentRegistry := ∅;
              Loader.console := [];
              Loader.imported := [] |} in
  let call :=
    Loader.loadComponent nat truthy (fun _ => true) card_module w
      (str "Card") (str "Card.tsx") None in
  Loader.componentRegistry w !! str "Card" = None /\
  call.1 = Loader.Returned (Some 7%nat) /\
  Loader.componentRegistry call.2 !! str "Card" = Some 7%nat /\
  Loader.loadComponent nat truthy (fun _ => true) card_module call.2
    (str "Card") (str "Other.tsx") None
  = (Loader.Returned (Some 7%nat), call.2).
Proof.
  intros truthy w call.
  assert (H1 : Loader.componentRegistry w !! str "Card" = None)
    by apply lookup_empty.
  assert (H2 : call.1 = Loader.Returned (Some 7%nat)) by reflexivity.
  destruct (loadComponent_never_throws truthy (fun _ => true) card_module w
              (str "Card") (str "Card.tsx") None)
    as (_ & _ & _ & H & _ & _).
  destruct (H 7%nat H2) as (_ & H3 & H4).
  split_and!; [exact H1|exact H2|exact H3|apply H4].
Defined.

End LoaderScenarios.

(** * Further properties of the streaming parser *)

Section StreamingParserFurther.

Import StreamingParser.

Variable JSON_parse : jstring -> option JsValue.

#[local] Abbreviation step := (step JSON_parse).
#[local] Abbreviation loop := (loop JSON_parse).
#[local] Abbreviation scan := (scan JSON_parse).
#[local] Abbreviation inspect := (inspect JSON_parse).
#[local] Abbreviation closings := (closings JSON_parse).
#[local] Abbreviation processStreamingContent :=
  (processStreamingContent JSON_parse).

#[local] Arguments code : simpl never.
#[local] Arguments str : simpl never.
#[local] Arguments tick : simpl never.

(** *** The quick check *)

Lemma no_tick_released s text :
  I.stage s = none ->
  includes text [tick] = false ->
  loop s text
  = I.mk none (I.buffer s) (I.displayContent s ++ text)
         (I.completedBlocks s) (I.blockContent s) (I.console s).
Proof.
  revert s. induction text as [|c text IH]; intros s Hst Hno.
  - simpl. rewrite app_nil_r. destruct s. simpl in Hst. by subst.
  - pose proof (not_includes_cons _ _ _ Hno) as Hno'.
    assert (Hc : (c =? tick) = false).
    { destruct (N.eqb_spec c tick) as [->|]; [|done].
      pose proof (includes_middle [] [tick] text) as Hin.
      simpl app in Hin. congruence. }
    change (loop s (c :: text)) with (loop (step s c) text).
    unfold StreamingParser.step. rewrite Hst, Hc.
    rewrite IH by done. simpl. by rewrite <- app_assoc.
Qed.

(** X1: a content that [mightContainUICPBlock] rules out is returned as
    display text, with no block, nothing pending and an empty buffer. *)
Theorem quick_check_is_sound (currentState : StreamingParserState) content :
  mightContainUICPBlock content = false ->
  processStreamingContent currentState content
  = {| displayContent := content;
       hasPendingBlock := false;
       isInUICPBlock := false;
       completedBlocks := [];
       buffer := [] |}.
Proof.
  intros Hno.
  unfold StreamingParser.processStreamingContent, StreamingParser.scan.
  by rewrite (no_tick_released initial content eq_refl Hno).
Qed.

(** *** What is displayed and logged is never taken back *)

Lemma finish_block_grows s :
  I.displayContent s `prefix_of` I.displayContent (finish_block JSON_parse s)
  /\ I.console s `prefix_of` I.console (finish_block JSON_parse s).
Proof.
  unfold finish_block.
  destruct (inspect (I.blockContent s)); simpl;
    split; try done; by apply prefix_app_r.
Qed.

Lemma step_grows s c :
  I.displayContent s `prefix_of` I.displayContent (step s c)
  /\ I.console s `prefix_of` I.console (step s c).
Proof.
  destruct (finish_block_grows s) as [Hd Hc].
  unfold StreamingParser.step.
  destruct (I.stage s);
    repeat match goal with |- context [if ?b then _ else _] => destruct b end;
    simpl; split; try done; by apply prefix_app_r.
Qed.

Lemma loop_grows s rest :
  I.displayContent s `prefix_of` I.displayContent (loop s rest)
  /\ I.console s `prefix_of` I.console (loop s rest).
Proof.
  revert s. induction rest as [|c rest IH]; intros s; simpl; [done|].
  destruct (step_grows s c) as [Hd Hc], (IH (step s c)) as [Hd' Hc'].
  split; etrans; eauto.
Qed.

(** X2: when the text is extended, the [displayContent] of the shorter
    text is a prefix of the new [displayContent], and the diagnostics
    written for the shorter text are a prefix of the new ones. *)
Theorem display_only_grows
  (state1 state2 : StreamingParserState) (text suffix : jstring) :
  displayContent (processStreamingContent state1 text)
  `prefix_of` displayContent (processStreamingContent state2 (text ++ suffix))
  /\ I.console (scan text) `prefix_of` I.console (scan (text ++ suffix)).
Proof.
  unfold StreamingParser.processStreamingContent, result,
    StreamingParser.scan; simpl.
  rewrite loop_app. apply loop_grows.
Qed.

(** *** The returned buffer *)

(** X3: when nothing is pending the returned [buffer] is empty; and as
    long as no block is confirmed the [buffer] is the withheld end of the
    text, and it is the beginning of a block start: backticks, then
    letters of the tag. *)
Theorem buffer_is_the_withheld_end
  (currentState : StreamingParserState) text :
  (hasPendingBlock (processStreamingContent currentState text) = false ->
   buffer (processStreamingContent currentState text) = [])
  /\ (isInUICPBlock (processStreamingContent currentState text) = false ->
      buffer (processStreamingContent currentState text) `suffix_of` text /\
      exists n,
        buffer (processStreamingContent currentState text)
        `prefix_of` replicate n tick ++ str "uicp").
Proof.
  destruct (segmented_scan JSON_parse text)
    as (gs & tail & Hc & _ & _ & Hp & _).
  unfold StreamingParser.processStreamingContent, result; simpl.
  unfold pending in Hp.
  assert (Hsuf : tail `suffix_of` text) by (rewrite Hc; by apply suffix_app_r).
  destruct (I.stage (scan text)) eqn:Hst; simpl in *.
  - destruct Hp as (Ht & Hb & Hbc). rewrite Hb, Hbc. split; [done|].
    intros _. split; [apply suffix_nil|]. exists 0%nat. apply prefix_nil.
  - destruct Hp as (Ht & Hb & Hbc). rewrite Hb, Hbc, app_nil_r.
    split; [done|]. intros _. split; [done|]. exists 1%nat.
    rewrite Ht. by apply prefix_app_r.
  - destruct Hp as (Ht & Hb & Hbc). rewrite Hb, Hbc, app_nil_r.
    split; [done|]. intros _. split; [done|]. exists 2%nat.
    rewrite Ht. by apply (prefix_app_r [tick; tick]).
  - destruct Hp as ((n & Hn & Ht) & Hb & Hbc). rewrite Hb, Hbc, app_nil_r.
    split; [done|]. intros _. split; [done|]. exists n.
    rewrite Ht, app_nil_r. by apply prefix_app_r.
  - destruct Hp as ((n & Hn & Ht) & Hb & Hbc). rewrite Hb, Hbc, app_nil_r.
    split; [done|]. intros _. split; [done|]. exists n.
    rewrite Ht. apply prefix_app. by exists (str "icp").
  - destruct Hp as ((n & Hn & Ht) & Hb & Hbc). rewrite Hb, Hbc, app_nil_r.
    split; [done|]. intros _. split; [done|]. exists n.
    rewrite Ht. apply prefix_app. by exists (str "cp").
  - destruct Hp as ((n & Hn & Ht) & Hb & Hbc). rewrite Hb, Hbc, app_nil_r.
    split; [done|]. intros _. split; [done|]. exists n.
    rewrite Ht. apply prefix_app. by exists (str "p").
  - destruct Hp as ((n & Hn & Ht) & Hb & Hbc). rewrite Hb, Hbc, app_nil_r.
    split; [done|]. intros _. split; [done|]. exists n. by rewrite Ht.
  - done.
  - done.
  - done.
  - done.
Qed.

(** *** Every closing fence that is passed is accounted for *)

Lemma step_accounts s c :
  (length (I.completedBlocks (step s c)) + length (I.console (step s c))
   = length (I.completedBlocks s) + length (I.console s)
     + (if bool_decide (I.stage s = closing3) then 1 else 0))%nat.
Proof.
  unfold StreamingParser.step, finish_block.
  destruct (I.stage s) eqn:Hst; simpl;
    repeat match goal with |- context [if ?b then _ else _] => destruct b end;
    simpl; try lia.
  all: destruct (inspect (I.blockContent s)); simpl;
    rewrite ?length_app; simpl; lia.
Qed.

Lemma loop_accounts s rest :
  (length (I.completedBlocks (loop s rest)) + length (I.console (loop s rest))
   = length (I.completedBlocks s) + length (I.console s) + closings s rest)%nat.
Proof.
  revert s. induction rest as [|c rest IH]; intros s; simpl; [lia|].
  rewrite IH, step_accounts. lia.
Qed.

(** X6: each closing fence that the scan has passed gave either one
    element of [completedBlocks] or one diagnostic, never both and never
    neither. *)
Theorem closed_blocks_returned_or_reported
  (currentState : StreamingParserState) text :
  (length (completedBlocks (processStreamingContent currentState text))
   + length (I.console (scan text))
   = closings initial text)%nat.
Proof.
  unfold StreamingParser.processStreamingContent, result,
    StreamingParser.scan; simpl.
  by rewrite loop_accounts.
Qed.

End StreamingParserFurther.

(** * Further properties of the definitions cache *)

Section DefinitionsLoaderFurther.

Import DefinitionsLoader.

Context {Definitions : Type}.

#[local] Abbreviation World := (World Definitions).
#[local] Abbreviation loadDefinitionsWithCache :=
  (loadDefinitionsWithCache Definitions).
#[local] Abbreviation clearDefinitionsCache :=
  (clearDefinitionsCache Definitions).

(** X7: a call changes the cache at most in the entry of its own source,
    and only when its load resolves: the entries of all other sources are
    kept, a rejected load is passed on with the cache as it was (a stale
    entry stays), and an object source is returned with neither a load
    nor a change of the cache. *)
Theorem call_touches_own_entry_only
  (w : World) source ttl now outcome later :
  let call := loadDefinitionsWithCache w source ttl now outcome later in
  (forall s other,
     source = uri s -> other <> s ->
     definitionsCache call.2 !! other = definitionsCache w !! other)
  /\ (forall s reason,
        source = uri s -> call.1 = rejected reason ->
        outcome = rejected reason /\
        definitionsCache call.2 = definitionsCache w)
  /\ (forall d, source = object d -> call = (resolved d, w)).
Proof.
  intros call. unfold call, DefinitionsLoader.loadDefinitionsWithCache.
  split_and!.
  - intros s other -> Hne. simpl.
    destruct (fresh _ _ _ _); [done|].
    destruct outcome; simpl; [|done]. by rewrite lookup_insert_ne.
  - intros s reason ->. simpl.
    destruct (fresh _ _ _ _); [done|].
    destruct outcome; simpl; [done|]. by intros [= ->].
  - by intros d ->.
Qed.

(** X8: after [clearDefinitionsCache(source)] with a non-empty source, the
    next call for that source loads, whatever its [ttl] and the time, and
    the entries of the other sources are still there; without an
    argument, or with the empty string, every entry is dropped. *)
Theorem clearing_forces_a_reload (w : World) s ttl now outcome later :
  (s <> [] ->
   loads (loadDefinitionsWithCache (clearDefinitionsCache w (Some s))
            (uri s) ttl now outcome later).2
   = loads w ++ [s]
   /\ forall other,
        other <> s ->
        definitionsCache (clearDefinitionsCache w (Some s)) !! other
        = definitionsCache w !! other)
  /\ definitionsCache (clearDefinitionsCache w None) = ∅
  /\ definitionsCache (clearDefinitionsCache w (Some [])) = ∅.
Proof.
  split_and!; [|done|done].
  intros Hs. destruct s as [|c s]; [done|]. split.
  - unfold DefinitionsLoader.loadDefinitionsWithCache,
      DefinitionsLoader.clearDefinitionsCache, fresh; simpl.
    rewrite lookup_delete_eq. by destruct outcome.
  - intros other Hne. simpl. by rewrite lookup_delete_ne.
Qed.

(** X9: once a load has resolved and been stored at time [stored], a
    later call for the same source is answered from the cache exactly
    when less than [ttl] has passed since [stored], where an omitted
    [ttl] is [DEFAULT_CACHE_TTL], five minutes; it then returns the stored
    definitions. *)
Theorem stored_entry_served_for_ttl
  (w : World) s ttl1 now1 d stored ttl2 now2 outcome2 later2 :
  fresh Definitions (definitionsCache w !! s) now1
    (default DEFAULT_CACHE_TTL ttl1) = None ->
  let call1 :=
    loadDefinitionsWithCache w (uri s) ttl1 now1 (resolved d) stored in
  let call2 :=
    loadDefinitionsWithCache call1.2 (uri s) ttl2 now2 outcome2 later2 in
  ((now2 - stored < default DEFAULT_CACHE_TTL ttl2)%Z ->
   call2 = (resolved d, call1.2))
  /\ ((default DEFAULT_CACHE_TTL ttl2 <= now2 - stored)%Z ->
      loads call2.2 = loads call1.2 ++ [s] /\ call2.1 = outcome2)
  /\ DEFAULT_CACHE_TTL = 300000%Z.
Proof.
  intros Hmiss call1 call2.
  assert (H1 : call1
               = (resolved d,
                  {| definitionsCache :=
                       <[s := {| data := d; timestamp := stored |}]>
                         (definitionsCache w);
                     loads := loads w ++ [s] |})).
  { unfold call1, DefinitionsLoader.loadDefinitionsWithCache; simpl.
    by rewrite Hmiss. }
  unfold call2, DefinitionsLoader.loadDefinitionsWithCache, fresh.
  rewrite H1; simpl. rewrite lookup_insert_eq; simpl.
  split_and!; [| |done].
  - intros Hlt.
    by destruct (Z.ltb_spec (now2 - stored) (default DEFAULT_CACHE_TTL ttl2));
      [|lia].
  - intros Hge.
    destruct (Z.ltb_spec (now2 - stored) (default DEFAULT_CACHE_TTL ttl2));
      [lia|]. by destruct outcome2.
Qed.

End DefinitionsLoaderFurther.

(** * Further properties of the component registry and loader *)

Section LoaderFurther.

Import Loader.

Context {Value : Type}.
Variable truthy : Value -> bool.
Variable isFunctionOrObject : Value -> bool.
Variable import : jstring -> Module_ Value + jstring.

#[local] Abbreviation World := (World Value).
#[local] Abbreviation loadComponent :=
  (loadComponent Value truthy isFunctionOrObject import).
#[local] Abbreviation try_body :=
  (try_body Value truthy isFunctionOrObject import).
#[local] Abbreviation registryTruthy := (registryTruthy Value truthy).
#[local] Abbreviation registerComponent := (registerComponent Value).
#[local] Abbreviation getComponent := (getComponent Value).
#[local] Abbreviation clearRegistry := (clearRegistry Value).
#[local] Abbreviation getRegisteredComponents :=
  (getRegisteredComponents Value).

#[local] Arguments code : simpl never.
#[local] Arguments str : simpl never.

(** On a registry miss the module at the import path is imported, once. *)
Lemma loadComponent_miss_imports (w : World) uid componentPath basePath :
  truthy' Value truthy (componentRegistry w !! uid) = false ->
  imported (loadComponent w uid componentPath basePath).2
  = imported w
    ++ [fullPathOf componentPath (default (str "/components/uicp") basePath)].
Proof.
  intros Hmiss. unfold Loader.loadComponent, getComponent, Loader.try_body.
  rewrite Hmiss.
  destruct (import _) as [module|error]; simpl; [|done].
  match goal with
  | |- context [match ?x with Some _ => _ | None => _ end] =>
      destruct x as [c|]
  end; [|done].
  by destruct (truthy c).
Qed.

(** X10: a component registered by the host is what [loadComponent]
    returns for that uid, with no import and whatever the path; a later
    registration for the same uid replaces it; and after
    [clearRegistry(uid)] the uid is unknown again, so that [loadComponent]
    goes back to importing. *)
Theorem registration_bypasses_import
  (w : World) uid c c' componentPath basePath :
  truthy c = true ->
  uid <> [] ->
  loadComponent (registerComponent w uid c) uid componentPath basePath
  = (Returned (Some c), registerComponent w uid c)
  /\ getComponent (registerComponent (registerComponent w uid c') uid c) uid
     = Some c
  /\ getComponent (clearRegistry (registerComponent w uid c) (Some uid)) uid
     = None
  /\ imported
       (loadComponent (clearRegistry (registerComponent w uid c) (Some uid))
          uid componentPath basePath).2
     = imported w
       ++ [fullPathOf componentPath
             (default (str "/components/uicp") basePath)].
Proof.
  intros Ht Hne. split_and!.
  - apply loadComponent_registered; [|done].
    simpl. apply lookup_insert_eq.
  - unfold Loader.getComponent. simpl. apply lookup_insert_eq.
  - destruct uid as [|a uid]; [done|].
    unfold Loader.getComponent. simpl. apply lookup_delete_eq.
  - destruct uid as [|a uid]; [done|].
    rewrite loadComponent_miss_imports; [done|].
    simpl. by rewrite lookup_delete_eq.
Qed.

Lemma registered_uids (w : World) uid :
  uid ∈ getRegisteredComponents w <-> is_Some (componentRegistry w !! uid).
Proof.
  unfold Loader.getRegisteredComponents. rewrite list_elem_of_fmap. split.
  - intros ([k v] & -> & Hin). apply elem_of_map_to_list in Hin. by exists v.
  - intros [v Hv]. exists (uid, v). split; [done|].
    by apply elem_of_map_to_list.
Qed.

(** X11: [getRegisteredComponents] lists each registered uid once and
    nothing else; [clearRegistry(uid)] with a non-empty uid removes that
    uid and keeps the others; without an argument, or with the empty
    string, it leaves no uid registered. *)
Theorem registered_uids_and_clearing (w : World) uid :
  (forall any,
     any ∈ getRegisteredComponents w
     <-> is_Some (componentRegistry w !! any))
  /\ NoDup (getRegisteredComponents w)
  /\ (uid <> [] ->
      forall any,
        any ∈ getRegisteredComponents (clearRegistry w (Some uid))
        <-> any <> uid /\ any ∈ getRegisteredComponents w)
  /\ getRegisteredComponents (clearRegistry w None) = []
  /\ getRegisteredComponents (clearRegistry w (Some [])) = [].
Proof.
  split_and!.
  - intros any. apply registered_uids.
  - apply NoDup_fst_map_to_list.
  - intros Hne any. destruct uid as [|a uid]; [done|].
    rewrite !registered_uids. simpl.
    destruct (decide (any = a :: uid)) as [->|Hany].
    + rewrite lookup_delete_eq. split; [by intros [? ?]|by intros [? _]].
    + rewrite lookup_delete_ne by done. split; [by intros ?|by intros [_ ?]].
  - unfold Loader.getRegisteredComponents. simpl.
    by rewrite map_to_list_empty.
  - unfold Loader.getRegisteredComponents. simpl.
    by rewrite map_to_list_empty.
Qed.

(** X12: the registry only ever holds truthy values when the host only
    registers truthy ones: [registerComponent] of a truthy value,
    [clearRegistry] and [loadComponent] all keep it so. *)
Theorem registry_stays_truthy (w : World) uid c componentPath basePath cleared :
  registryTruthy w ->
  (truthy c = true -> registryTruthy (registerComponent w uid c))
  /\ registryTruthy (clearRegistry w cleared)
  /\ registryTruthy (loadComponent w uid componentPath basePath).2.
Proof.
  intros Hw. split_and!.
  - intros Hc k v. simpl. rewrite lookup_insert.
    case_decide; [by intros [= <-]|apply Hw].
  - intros k v. unfold Loader.clearRegistry. simpl.
    destruct cleared as [[|a rest]|]; simpl.
    + by rewrite lookup_empty.
    + rewrite lookup_delete. case_decide; [done|apply Hw].
    + by rewrite lookup_empty.
  - unfold Loader.loadComponent.
    destruct (truthy' Value truthy (getComponent w uid)); [done|].
    destruct (try_body_outcome truthy isFunctionOrObject import w uid
                componentPath (default (str "/components/uicp") basePath))
      as (fullPath & _ & [(v & Hr & Ht & Hreg & _)|[_ Hreg]]).
    + destruct (try_body _ _ _ _) as [r w'] eqn:E. simpl in *. subst r.
      intros k x. simpl. rewrite Hreg, lookup_insert.
      case_decide; [by intros [= <-]|apply Hw].
    + destruct (try_body _ _ _ _) as [[r|e] w'] eqn:E; simpl in *;
        intros k x; simpl; rewrite Hreg; apply Hw.
Qed.

(** What a call that returns [null] on a registry miss leaves behind:
    the path imported, one line logged, the registry as it was. *)
Lemma failed_load_state (w : World) uid componentPath basePath :
  componentRegistry w !! uid = None ->
  (loadComponent w uid componentPath basePath).1 = Returned None ->
  exists entry,
    (loadComponent w uid componentPath basePath).2
    = {| componentRegistry := componentRegistry w;
         console := console w ++ [entry];
         imported :=
           imported w
           ++ [fullPathOf componentPath
                 (default (str "/components/uicp") basePath)] |}.
Proof.
  intros Hmiss.
  unfold Loader.loadComponent, getComponent, Loader.try_body.
  rewrite Hmiss. simpl.
  destruct (import _) as [module|error]; simpl; [|by eexists].
  match goal with
  | |- context [match ?x with Some _ => _ | None => _ end] =>
      destruct x as [c|]
  end; [|by eexists].
  destruct (truthy c); simpl; [done|by eexists].
Qed.

(** X13: a failed load is not remembered.  When [loadComponent] returns
    [null] on a registry miss, it has imported the path and logged one
    line, and the registry is as it was.  So the next call for the same
    uid imports the same path again and, whatever that import answers
    this time (it is [import'], which need not answer as the first did),
    returns and registers what a call on the state before the failure
    would have, and logs what that call would have logged. *)
Theorem failed_load_is_retried (w : World) uid componentPath basePath
  (import' : jstring -> Module_ Value + jstring) :
  componentRegistry w !! uid = None ->
  (loadComponent w uid componentPath basePath).1 = Returned None ->
  let path :=
    fullPathOf componentPath (default (str "/components/uicp") basePath) in
  let failed := loadComponent w uid componentPath basePath in
  let again :=
    Loader.loadComponent Value truthy isFunctionOrObject import'
      failed.2 uid componentPath basePath in
  let direct :=
    Loader.loadComponent Value truthy isFunctionOrObject import'
      w uid componentPath basePath in
  componentRegistry failed.2 = componentRegistry w
  /\ imported failed.2 = imported w ++ [path]
  /\ length (console failed.2) = (length (console w) + 1)%nat
  /\ imported again.2 = imported w ++ [path; path]
  /\ again.1 = direct.1
  /\ componentRegistry again.2 = componentRegistry direct.2
  /\ exists logged,
       console direct.2 = console w ++ logged /\
       console again.2 = console failed.2 ++ logged.
Proof.
  intros Hmiss Hnull path failed again direct.
  destruct (failed_load_state w uid componentPath basePath Hmiss Hnull)
    as [entry Hfailed].
  unfold again, direct. fold failed in Hfailed. rewrite Hfailed.
  clear again direct Hfailed Hnull failed.
  unfold Loader.loadComponent, getComponent, Loader.try_body.
  cbn [componentRegistry console imported]. rewrite Hmiss. simpl.
  fold path. rewrite length_app, <- app_assoc. simpl.
  split_and!; [done|done|done|..].
  - destruct (import' path) as [module|error]; simpl; [|done].
    match goal with
    | |- context [match ?x with Some _ => _ | None => _ end] =>
        destruct x as [c|]
    end; [|done].
    by destruct (truthy c).
  - destruct (import' path) as [module|error]; simpl; [|done].
    match goal with
    | |- context [match ?x with Some _ => _ | None => _ end] =>
        destruct x as [c|]
    end; [|done].
    by destruct (truthy c).
  - destruct (import' path) as [module|error]; simpl; [|done].
    match goal with
    | |- context [match ?x with Some _ => _ | None => _ end] =>
        destruct x as [c|]
    end; [|done].
    by destruct (truthy c).
  - destruct (import' path) as [module|error]; simpl; [|by eexists].
    match goal with
    | |- context [match ?x with Some _ => _ | None => _ end] =>
        destruct x as [c|]
    end; [|by eexists].
    destruct (truthy c); simpl; [by exists []; rewrite !app_nil_r|by eexists].
Qed.

(** *** Which export is taken *)

Lemma first_truthy_cons (a : option Value) l :
  head (filter truthy (omap id (a :: l)))
  = if truthy' Value truthy a then a else head (filter truthy (omap id l)).
Proof.
  destruct a as [x|]; simpl; [|done].
  rewrite filter_cons. destruct (truthy x) eqn:Hx.
  - by rewrite decide_True by done.
  - by rewrite decide_False by (by intros ?).
Qed.

(** [a || b || c || d], kept when truthy. *)
Lemma or_else_chain (a b c d : option Value) :
  let component := or_else Value truthy
                     (or_else Value truthy (or_else Value truthy a b) c) d in
  (if truthy' Value truthy component then component else None)
  = head (filter truthy (omap id [a; b; c; d])).
Proof.
  intros component. rewrite !first_truthy_cons. simpl.
  unfold component, or_else.
  destruct (truthy' Value truthy a) eqn:Ha; rewrite ?Ha; [done|].
  destruct (truthy' Value truthy b) eqn:Hb; rewrite ?Hb; [done|].
  destruct (truthy' Value truthy c) eqn:Hc; rewrite ?Hc; [done|].
  by destruct (truthy' Value truthy d) eqn:Hd.
Qed.

(** X14: on a registry miss with an import that resolves, the component
    is the first truthy one among the default export, the export named
    [uid], the export named like the file, and the first export that is a
    function or an object; it is registered under [uid].  When none of
    the four is truthy the result is [null], the registry is unchanged
    and the missing export is logged. *)
Theorem first_truthy_export_is_loaded
  (w : World) uid componentPath basePath module :
  componentRegistry w !! uid = None ->
  import (fullPathOf componentPath (default (str "/components/uicp") basePath))
  = inl module ->
  let candidates :=
    [property Value module (str "default");
     property Value module uid;
     property Value module (stripExtension (lastSegment componentPath []));
     snd <$> find (fun e => isFunctionOrObject (snd e)) module] in
  let call := loadComponent w uid componentPath basePath in
  match head (filter truthy (omap id candidates)) with
  | Some c =>
      call.1 = Returned (Some c) /\
      componentRegistry call.2 = <[uid := c]> (componentRegistry w) /\
      console call.2 = console w
  | None =>
      call.1 = Returned None /\
      componentRegistry call.2 = componentRegistry w /\
      console call.2
      = console w
        ++ [no_valid_component_export
              (fullPathOf componentPath
                 (default (str "/components/uicp") basePath))]
  end.
Proof.
  intros Hmiss Himport candidates call.
  unfold candidates. rewrite <- or_else_chain.
  unfold call, Loader.loadComponent, getComponent, Loader.try_body.
  rewrite Hmiss. simpl. rewrite Himport.
  match goal with
  | |- context [truthy' Value truthy ?x] => destruct x as [c|]
  end; simpl; [|done].
  by destruct (truthy c).
Qed.

(** *** The export named like the file *)

Lemma not_includes_char c s x :
  includes (c :: s) [x] = false -> x <> c /\ includes s [x] = false.
Proof.
  intros H. split; [|by eapply not_includes_cons].
  intros ->. pose proof (includes_middle [] [c] s) as Hin.
  simpl app in Hin. congruence.
Qed.

Lemma includes_char s x : includes s [x] = false <-> x ∉ s.
Proof.
  induction s as [|c s IH].
  - split; [intros _; apply not_elem_of_nil|done].
  - rewrite not_elem_of_cons, <- IH. split.
    + intros H. by apply not_includes_char in H.
    + intros [Hne H]. simpl. rewrite H, andb_true_r, orb_false_r.
      by apply N.eqb_neq.
Qed.

Lemma word_characters ext c :
  forallb isWord ext = true -> c ∈ ext -> isWord c = true.
Proof.
  induction ext as [|e ext IH]; simpl; intros Hw Hin.
  - by apply elem_of_nil in Hin.
  - apply andb_true_iff in Hw as [He Hw].
    apply elem_of_cons in Hin as [->|Hin]; [done|by apply IH].
Qed.

Lemma word_rev ext :
  forallb isWord ext = true -> forallb isWord (rev ext) = true.
Proof.
  rewrite !forallb_forall. intros H x Hin. apply H. by apply in_rev.
Qed.

Lemma lastSegment_no_slash b acc :
  includes b (str "/") = false -> lastSegment b acc = rev acc ++ b.
Proof.
  revert acc. induction b as [|c b IH]; intros acc H; simpl.
  - by rewrite app_nil_r.
  - apply not_includes_char in H as [Hc H].
    destruct (N.eqb_spec c (code "/")) as [->|_]; [done|].
    rewrite IH by done. simpl. by rewrite <- app_assoc.
Qed.

Lemma lastSegment_after_slash a b acc :
  includes b (str "/") = false ->
  lastSegment (a ++ str "/" ++ b) acc = b.
Proof.
  intros Hb. revert acc. induction a as [|c a IH]; intros acc; simpl.
  - by rewrite lastSegment_no_slash.
  - destruct (c =? code "/"); apply IH.
Qed.

Lemma spanWord_word word rest :
  forallb isWord word = true ->
  match rest with [] => True | c :: _ => isWord c = false end ->
  spanWord (word ++ rest) = (word, rest).
Proof.
  intros Hw Hr. induction word as [|c word IH]; simpl.
  - destruct rest as [|c rest]; [done|]. simpl. by rewrite Hr.
  - simpl in Hw. apply andb_true_iff in Hw as [Hc Hw].
    by rewrite Hc, IH.
Qed.

Lemma spanWord_split s :
  forallb isWord (spanWord s).1 = true /\
  s = (spanWord s).1 ++ (spanWord s).2 /\
  match (spanWord s).2 with [] => True | c :: _ => isWord c = false end.
Proof.
  induction s as [|c s (IH1 & IH2 & IH3)]; simpl; [done|].
  destruct (isWord c) eqn:Hc; simpl.
  - destruct (spanWord s) as [word rest]. simpl in *.
    rewrite Hc, IH1. split_and!; [done|by f_equal|done].
  - by rewrite Hc.
Qed.

(** X15: the export looked up by file name is named by what follows the
    last slash of [componentPath], without its last extension: for
    [dir/name.ext] with an extension of word characters it is [name], also
    when [name] itself has dots; and a file name without a dot is taken
    whole. *)
Theorem export_named_like_the_file dir name ext :
  includes name (str "/") = false ->
  (ext <> [] -> forallb isWord ext = true ->
   stripExtension (lastSegment (dir ++ str "/" ++ name ++ str "." ++ ext) [])
   = name
   /\ stripExtension (lastSegment (name ++ str "." ++ ext) []) = name)
  /\ (includes name (str ".") = false ->
      stripExtension (lastSegment (dir ++ str "/" ++ name) []) = name).
Proof.
  intros Hname. split.
  - intros Hne Hext.
    assert (Hslash : includes (name ++ str "." ++ ext) (str "/") = false).
    { apply includes_char. apply includes_char in Hname.
      rewrite !elem_of_app. intros [Hin|[Hin|Hin]].
      - done.
      - apply list_elem_of_singleton in Hin. discriminate.
      - by pose proof (word_characters _ _ Hext Hin). }
    assert (Hstrip : stripExtension (name ++ str "." ++ ext) = name).
    { unfold stripExtension. rewrite !rev_app_distr. simpl.
      rewrite <- app_assoc. simpl.
      rewrite (spanWord_word (rev ext) (code "." :: rev name));
        [|by apply word_rev|done].
      destruct (rev ext) as [|e r] eqn:E.
      - apply (f_equal (@rev _)) in E. rewrite rev_involutive in E. done.
      - simpl. by rewrite rev_involutive. }
    split.
    + by rewrite lastSegment_after_slash.
    + rewrite lastSegment_no_slash by done. done.
  - intros Hdot. rewrite lastSegment_after_slash by done.
    unfold stripExtension.
    destruct (spanWord_split (rev name)) as (_ & Hsplit & Hrest).
    destruct (spanWord (rev name)) as [word rest]. simpl in *.
    destruct word as [|w word]; [done|].
    destruct rest as [|c rest]; [done|].
    destruct (N.eqb_spec c (code ".")) as [->|_]; [|done].
    exfalso.
    assert (Hin : includes name (str ".") = true).
    { apply includes_infix. exists (rev rest), (rev (w :: word)).
      apply (f_equal (@rev _)) in Hsplit. rewrite rev_involutive in Hsplit.
      rewrite Hsplit, rev_app_distr. simpl. by rewrite <- !app_assoc. }
    congruence.
Qed.

End LoaderFurther.


(** * Properties of the rendering *)

Section ReactComponentsProperties.

Import StreamingParser ReactComponents.

Variables Definitions Element Rendered : Type.
Variable renderUICPBlock : JsValue -> Definitions -> jstring -> option Element.
Variable textRenderFn : jstring -> Rendered.
Variable componentWrapperFn : Element -> Rendered.
Variable spinner : Rendered.
Variable JSON_parse : jstring -> option JsValue.

#[local] Abbreviation inspect := (inspect JSON_parse).
#[local] Abbreviation emit := (emit JSON_parse).
#[local] Abbreviation replay := (replay JSON_parse).
#[local] Abbreviation displayed := (displayed JSON_parse).
#[local] Abbreviation accepted := (accepted JSON_parse).
#[local] Abbreviation renderPart :=
  (renderPart Definitions Element Rendered renderUICPBlock textRenderFn
     componentWrapperFn).
#[local] Abbreviation renderedContent :=
  (renderedContent Definitions Element Rendered renderUICPBlock textRenderFn
     componentWrapperFn spinner).
#[local] Abbreviation textNode := (textNode Rendered textRenderFn).
#[local] Abbreviation componentNode :=
  (componentNode Definitions Element Rendered renderUICPBlock
     componentWrapperFn).
#[local] Abbreviation nodes :=
  (nodes Definitions Element Rendered renderUICPBlock textRenderFn
     componentWrapperFn JSON_parse).

#[local] Arguments code : simpl never.
#[local] Arguments str : simpl never.

(** *** Decimal numbers *)

Lemma digits_of_uint d :
  forallb isDigit (str (NilEmpty.string_of_uint d)) = true.
Proof. induction d; simpl; try done. Qed.

Lemma parseInt_of_uint d acc :
  foldl (fun n c => (10 * n + N.to_nat (c - 48))%nat) acc
    (str (NilEmpty.string_of_uint d))
  = Nat.of_uint_acc d acc.
Proof.
  revert acc. induction d as [|d IH|d IH|d IH|d IH|d IH|d IH|d IH|d IH|d IH|d IH];
    intros acc; [done|..];
    cbn [NilEmpty.string_of_uint Nat.of_uint_acc];
    rewrite <- IH, Nat.tail_mul_spec;
    change (str (String ?a ?s)) with (code a :: str s); cbn [foldl];
    f_equal;
    match goal with
    | |- context [N.to_nat ?x] =>
        let v := eval vm_compute in (N.to_nat x) in
        change (N.to_nat x) with v
    end; lia.
Qed.

Lemma parseInt_decimal k : parseInt (decimal k) = k.
Proof.
  unfold parseInt, decimal. rewrite parseInt_of_uint.
  apply (DecimalNat.Unsigned.of_to k).
Qed.

Lemma decimal_digits k : forallb isDigit (decimal k) = true.
Proof. apply digits_of_uint. Qed.

Lemma decimal_not_empty k : decimal k <> [].
Proof.
  intros H. pose proof (parseInt_decimal k) as Hk. rewrite H in Hk.
  subst k. discriminate H.
Qed.

(** *** Matching and splitting *)

Lemma spanDigits_digits digits rest :
  forallb isDigit digits = true ->
  spanDigits (digits ++ str "__" ++ rest) = (digits, str "__" ++ rest).
Proof.
  induction digits as [|c digits IH]; [done|].
  cbn [app spanDigits forallb].
  intros [Hc Hd]%andb_true_iff. by rewrite Hc, IH.
Qed.

Lemma matchPlaceholderAt_placeholder k rest :
  matchPlaceholderAt (placeholder k ++ rest) = Some (decimal k, rest).
Proof.
  unfold matchPlaceholderAt, placeholder. rewrite <- !app_assoc.
  assert (startsWith (str "__UICP_BLOCK_" ++ decimal k ++ str "__" ++ rest)
            (str "__UICP_BLOCK_") = true) as ->
    by (apply startsWith_prefix, prefix_app_r; done).
  change 13%nat with (length (str "__UICP_BLOCK_")).
  rewrite drop_app_length, (spanDigits_digits _ _ (decimal_digits k)).
  pose proof (decimal_not_empty k). by destruct (decimal k).
Qed.

Lemma matchPlaceholderAt_plain c s :
  c <> code "_" -> matchPlaceholderAt (c :: s) = None.
Proof.
  intros Hc. unfold matchPlaceholderAt.
  change (str "__UICP_BLOCK_") with (code "_" :: str "_UICP_BLOCK_").
  cbn [startsWith]. by destruct (N.eqb_spec (code "_") c).
Qed.

Lemma matchPlaceholder_plain s :
  code "_" ∉ s -> matchPlaceholder s = None.
Proof.
  induction s as [|c s IH]; intros Hs; [done|].
  apply not_elem_of_cons in Hs as [Hc Hs]. cbn [matchPlaceholder].
  rewrite matchPlaceholderAt_plain by done. by apply IH.
Qed.

Lemma matchPlaceholder_placeholder k :
  matchPlaceholder (placeholder k) = Some (decimal k).
Proof.
  pose proof (matchPlaceholderAt_placeholder k []) as H.
  rewrite app_nil_r in H.
  destruct (placeholder k); cbn [matchPlaceholder]; by rewrite H.
Qed.

Lemma split_from_skip a rest part :
  split_from (a ++ rest) (length a) part = split_from rest 0 part.
Proof. induction a as [|c a IH]; simpl; [by destruct rest|done]. Qed.

Lemma split_from_plain s rest part :
  code "_" ∉ s ->
  split_from (s ++ rest) 0 part = split_from rest 0 (rev s ++ part).
Proof.
  revert part. induction s as [|c s IH]; intros part Hs; [done|].
  apply not_elem_of_cons in Hs as [Hc Hs].
  cbn [app split_from]. rewrite matchPlaceholderAt_plain by done.
  rewrite IH by done. simpl. by rewrite <- app_assoc.
Qed.

Lemma split_from_placeholder k rest part :
  split_from (placeholder k ++ rest) 0 part
  = rev part :: placeholder k :: split_from rest 0 [].
Proof.
  pose proof (matchPlaceholderAt_placeholder k rest) as Hm.
  destruct (placeholder k ++ rest) as [|c s] eqn:Hs; [done|].
  cbn [split_from]. rewrite Hm. f_equal. f_equal.
  assert (s = drop 1 (placeholder k) ++ rest) as ->.
  { unfold placeholder in *.
    change (str "__UICP_BLOCK_") with (code "_" :: str "_UICP_BLOCK_") in *.
    simpl in Hs. by simplify_eq. }
  assert ((14 + length (decimal k))%nat = length (drop 1 (placeholder k)))
    as ->.
  { unfold placeholder. rewrite length_drop, !length_app.
    change (length (str "__UICP_BLOCK_")) with 13%nat.
    change (length (str "__")) with 2%nat. lia. }
  apply split_from_skip.
Qed.

(** *** What the segments display *)

Lemma foldl_emit gs blocks display :
  foldl emit (blocks, display) gs
  = (blocks ++ accepted gs, display ++ displayed gs (length blocks)).
Proof.
  revert blocks display.
  induction gs as [|[released|opener body|] gs IH]; intros blocks display;
    cbn [foldl StreamingParser.emit ReactComponents.displayed
         ReactComponents.accepted].
  - by rewrite !app_nil_r.
  - rewrite IH. cbn [fst snd]. by rewrite <- app_assoc.
  - destruct (inspect body); rewrite IH; try done.
    cbn [fst snd]. rewrite length_app, <- !app_assoc. cbn [length app].
    by rewrite Nat.add_1_r.
  - by rewrite IH.
Qed.

Lemma accepted_truthy body parsed :
  inspect body = Accepted parsed -> truthy (Some parsed) = true.
Proof.
  unfold StreamingParser.inspect.
  destruct (JSON_parse (trim body)) as [v|]; [|done].
  destruct v; simpl; try done.
  repeat case_match; naive_solver.
Qed.

(** *** The parts and their nodes *)

Lemma elem_of_rev (c : char) s : c ∈ rev s <-> c ∈ s.
Proof. rewrite !list_elem_of_In. symmetry. apply in_rev. Qed.

Lemma renderPart_text r loadedDefinitions index part :
  code "_" ∉ part ->
  renderPart r loadedDefinitions index part = textNode index part.
Proof.
  intros H. unfold ReactComponents.renderPart, ReactComponents.textNode.
  by rewrite matchPlaceholder_plain.
Qed.

Lemma renderPart_placeholder r loadedDefinitions index k body parsed :
  completedBlocks r !! k = Some parsed ->
  inspect body = Accepted parsed ->
  renderPart r loadedDefinitions index (placeholder k)
  = componentNode loadedDefinitions k parsed.
Proof.
  intros Hk Hbody.
  unfold ReactComponents.renderPart, ReactComponents.componentNode.
  rewrite matchPlaceholder_placeholder, parseInt_decimal. cbn zeta.
  rewrite Hk, (accepted_truthy _ _ Hbody). by destruct loadedDefinitions.
Qed.

Lemma rendered_parts r loadedDefinitions gs k part :
  Forall underscoreFree gs ->
  code "_" ∉ part ->
  (forall j parsed,
     accepted gs !! j = Some parsed ->
     completedBlocks r !! (k + j)%nat = Some parsed) ->
  concat (imap (fun i => renderPart r loadedDefinitions (2 * k + i))
            (split_from (displayed gs k) 0 part))
  = nodes loadedDefinitions gs k (rev part).
Proof.
  revert k part.
  induction gs as [|[released|opener body|] gs IH];
    intros k part Hgs Hpart Hblocks;
    cbn [ReactComponents.displayed ReactComponents.nodes].
  - cbn [split_from imap concat].
    rewrite app_nil_r, Nat.add_0_r. apply renderPart_text.
    by rewrite elem_of_rev.
  - apply Forall_cons in Hgs as [Hreleased Hgs].
    rewrite split_from_plain by done. rewrite IH; [|done| |done].
    + by rewrite rev_app_distr, rev_involutive.
    + rewrite elem_of_app, elem_of_rev. by intros [?|?].
  - apply Forall_cons in Hgs as [_ Hgs].
    cbn [ReactComponents.accepted] in Hblocks.
    destruct (inspect body) as [parsed| |] eqn:Hbody;
      [|by apply IH..].
    rewrite split_from_placeholder. cbn [imap concat].
    unfold compose. cbn beta.
    rewrite renderPart_text by by rewrite elem_of_rev.
    rewrite (renderPart_placeholder _ _ _ k body parsed); [|  |done].
    + rewrite Nat.add_0_r. f_equal. f_equal.
      assert (forall j v, accepted gs !! j = Some v ->
                completedBlocks r !! (S k + j)%nat = Some v) as Hrest.
      { intros j v Hj. specialize (Hblocks (S j) v Hj).
        by rewrite <- Nat.add_succ_comm in Hblocks. }
      etrans; [|exact (IH (S k) [] Hgs (not_elem_of_nil _) Hrest)].
      f_equal. apply imap_ext. intros i x _. f_equal. lia.
    + specialize (Hblocks 0%nat parsed eq_refl).
      by rewrite Nat.add_0_r in Hblocks.
  - apply Forall_cons in Hgs as [_ Hgs]. by apply IH.
Qed.

Lemma rendered_nodes text gs loadedDefinitions isStreaming :
  let r := parseStreamingContent JSON_parse text in
  replay gs = (completedBlocks r, displayContent r) ->
  Forall underscoreFree gs ->
  renderedContent r loadedDefinitions isStreaming
  = nodes loadedDefinitions gs 0 []
    ++ (if isStreaming && hasPendingBlock r
        then [fragment (str "loading-spinner") spinner]
        else []).
Proof.
  intros r Hreplay Hgs.
  unfold StreamingParser.replay in Hreplay.
  rewrite foldl_emit in Hreplay. cbn [app length] in Hreplay.
  assert (completedBlocks r = accepted gs
          /\ displayContent r = displayed gs 0) as [Hblocks Hdisplay]
    by (split; congruence).
  unfold ReactComponents.renderedContent. cbn zeta. f_equal.
  - rewrite Hdisplay. unfold split.
    apply (rendered_parts r loadedDefinitions gs 0 []);
      [done|by apply not_elem_of_nil|].
    intros j parsed Hj. by rewrite Hblocks.
  - assert (isInUICPBlock r || hasPendingBlock r = hasPendingBlock r)
      as ->; [|done].
    unfold r, parseStreamingContent, StreamingParser.processStreamingContent.
    cbn [result isInUICPBlock hasPendingBlock].
    by destruct (I.stage _).
Qed.

(** *** The keys of the nodes *)

Lemma decimal_inj i j : decimal i = decimal j -> i = j.
Proof.
  intros H. by rewrite <- (parseInt_decimal i), H, parseInt_decimal.
Qed.

Lemma textNode_keys index part node :
  node ∈ textNode index part -> key node = str "text-" ++ decimal index.
Proof.
  unfold ReactComponents.textNode. destruct (trim part).
  - by intros ?%not_elem_of_nil.
  - by intros ->%list_elem_of_singleton.
Qed.

Lemma componentNode_keys loadedDefinitions k block node :
  node ∈ componentNode loadedDefinitions k block ->
  key node = str "component-" ++ decimal k.
Proof.
  unfold ReactComponents.componentNode.
  destruct loadedDefinitions as [definitions|];
    [|by intros ?%not_elem_of_nil].
  destruct (renderUICPBlock _ _ _).
  - by intros ->%list_elem_of_singleton.
  - by intros ?%not_elem_of_nil.
Qed.

Lemma nodes_keys loadedDefinitions gs k part node :
  node ∈ nodes loadedDefinitions gs k part ->
  (exists i, (2 * k <= i)%nat /\ key node = str "text-" ++ decimal i)
  \/ (exists j, (k <= j)%nat /\ key node = str "component-" ++ decimal j).
Proof.
  revert k part.
  induction gs as [|[released|opener body|] gs IH]; intros k part;
    cbn [ReactComponents.nodes]; [|by apply IH| |by apply IH].
  - intros H%textNode_keys. left. by exists (2 * k)%nat.
  - destruct (inspect body); [|by apply IH..].
    rewrite !elem_of_app.
    intros [H%textNode_keys|[H%componentNode_keys|H%IH]].
    + left. by exists (2 * k)%nat.
    + right. by exists k.
    + destruct H as [(i & Hi & H)|(j & Hj & H)].
      * left. exists i. split; [lia|done].
      * right. exists j. split; [lia|done].
Qed.

Lemma textNode_NoDup index part : NoDup (key <$> textNode index part).
Proof.
  unfold ReactComponents.textNode. destruct (trim part); simpl.
  - constructor.
  - apply NoDup_singleton.
Qed.

Lemma componentNode_NoDup loadedDefinitions k block :
  NoDup (key <$> componentNode loadedDefinitions k block).
Proof.
  unfold ReactComponents.componentNode.
  destruct loadedDefinitions; [|constructor].
  destruct (renderUICPBlock _ _ _); [apply NoDup_singleton|constructor].
Qed.

Lemma text_key_not_component i j :
  str "text-" ++ decimal i <> str "component-" ++ decimal j.
Proof. discriminate. Qed.

Lemma nodes_NoDup loadedDefinitions gs k part :
  NoDup (key <$> nodes loadedDefinitions gs k part).
Proof.
  revert k part.
  induction gs as [|[released|opener body|] gs IH]; intros k part;
    cbn [ReactComponents.nodes]; [|by apply IH| |by apply IH].
  - apply textNode_NoDup.
  - destruct (inspect body); [|by apply IH..].
    rewrite !fmap_app. apply NoDup_app. split_and!.
    + apply textNode_NoDup.
    + intros x (a & -> & Ha%textNode_keys)%list_elem_of_fmap.
      rewrite elem_of_app.
      intros [(b & Hb & Hin%componentNode_keys)%list_elem_of_fmap
             |(b & Hb & Hin%nodes_keys)%list_elem_of_fmap];
        rewrite <- Hb in *; rewrite Ha in *.
      * by apply text_key_not_component in Hin.
      * destruct Hin as [(i & Hi & H)|(j & Hj & H)].
        -- apply app_inv_head, decimal_inj in H. lia.
        -- by apply text_key_not_component in H.
    + apply NoDup_app. split_and!.
      * apply componentNode_NoDup.
      * intros x (a & -> & Ha%componentNode_keys)%list_elem_of_fmap
          (b & Hb & Hin%nodes_keys)%list_elem_of_fmap.
        rewrite <- Hb in *; rewrite Ha in *.
        destruct Hin as [(i & Hi & H)|(j & Hj & H)].
        -- symmetry in H. by apply text_key_not_component in H.
        -- apply app_inv_head, decimal_inj in H. lia.
      * apply IH.
Qed.

(** X16: what [UICPContent] renders follows the text.  The parsed text
    falls into segments that replay to its blocks and display text; for
    any such segments whose released characters hold no underscore, the
    rendered nodes are, in text order, one text node for the characters
    released between two accepted blocks (unless they are blank), keyed
    by the position of the part, and one component node for each
    accepted block that renders, keyed by its number; the spinner comes
    last, exactly while streaming with a block pending. *)
Theorem rendering_follows_the_text text loadedDefinitions isStreaming :
  let r := parseStreamingContent JSON_parse text in
  (exists gs tail,
     text = sources gs ++ tail /\
     replay gs = (completedBlocks r, displayContent r))
  /\ (forall gs,
        replay gs = (completedBlocks r, displayContent r) ->
        Forall underscoreFree gs ->
        renderedContent r loadedDefinitions isStreaming
        = nodes loadedDefinitions gs 0 []
          ++ (if isStreaming && hasPendingBlock r
              then [fragment (str "loading-spinner") spinner]
              else [])).
Proof.
  intros r. split.
  - destruct (segmented_scan JSON_parse text)
      as (gs & tail & Htext & _ & Hreplay & _).
    by exists gs, tail.
  - intros gs. apply rendered_nodes.
Qed.

(** X17: the rendered nodes have distinct keys.  For a parsed text
    whose segments release no underscore, no two nodes of
    [renderedContent] carry the same React key, whatever the blocks
    render to and whether or not the spinner is shown. *)
Theorem rendered_keys_distinct text gs loadedDefinitions isStreaming :
  let r := parseStreamingContent JSON_parse text in
  replay gs = (completedBlocks r, displayContent r) ->
  Forall underscoreFree gs ->
  NoDup (key <$> renderedContent r loadedDefinitions isStreaming).
Proof.
  intros r Hreplay Hgs.
  rewrite (rendered_nodes text gs _ _ Hreplay Hgs).
  rewrite fmap_app. apply NoDup_app. split_and!.
  - apply nodes_NoDup.
  - intros x (a & -> & Ha%nodes_keys)%list_elem_of_fmap Hx.
    assert (key a = str "loading-spinner") as Hkey.
    { destruct (isStreaming && _); simpl in Hx.
      - by apply list_elem_of_singleton in Hx.
      - by apply not_elem_of_nil in Hx. }
    rewrite Hkey in Ha.
    by destruct Ha as [(i & _ & H)|(j & _ & H)].
  - destruct (isStreaming && _); simpl; [apply NoDup_singleton|constructor].
Qed.

End ReactComponentsProperties.

(** * Scenarios of the further properties *)

Section FurtherScenarios.

Import StreamingParser.

(** A text without a backtick is returned as it is. *)
Lemma quick_check_is_sound_witness :
  mightContainUICPBlock (str "Hello world") = false /\
  processStreamingContent Json.parse createStreamingParserState
    (str "Hello world")
  = {| displayContent := str "Hello world";
       hasPendingBlock := false;
       isInUICPBlock := false;
       completedBlocks := [];
       buffer := [] |}.
Proof.
  assert (H1 : mightContainUICPBlock (str "Hello world") = false)
    by reflexivity.
  split; [exact H1|].
  exact (quick_check_is_sound Json.parse createStreamingParserState
           (str "Hello world") H1).
Defined.

(** [Hello] leaves nothing in the buffer; [Hello ```ui] has the fence and
    the two letters of the tag withheld. *)
Lemma buffer_is_the_withheld_end_witness :
  let r1 := processStreamingContent Json.parse createStreamingParserState
              (str "Hello") in
  let r2 := processStreamingContent Json.parse createStreamingParserState
              (str "Hello ```ui") in
  hasPendingBlock r1 = false /\
  buffer r1 = [] /\
  isInUICPBlock r2 = false /\
  buffer r2 `suffix_of` str "Hello ```ui" /\
  exists n, buffer r2 `prefix_of` replicate n tick ++ str "uicp".
Proof.
  intros r1 r2.
  assert (H1 : hasPendingBlock r1 = false) by reflexivity.
  assert (H3 : isInUICPBlock r2 = false) by reflexivity.
  destruct (buffer_is_the_withheld_end Json.parse createStreamingParserState
              (str "Hello")) as [H _].
  pose proof (H H1) as H2.
  destruct (buffer_is_the_withheld_end Json.parse createStreamingParserState
              (str "Hello ```ui")) as [_ H'].
  destruct (H' H3) as [H4 H5].
  split_and!; [exact H1|exact H2|exact H3|exact H4|exact H5].
Defined.

(** The block of [block_X] after [Hello ], followed by [ world]. *)
Lemma accepted_block_in_text_witness :
  let before := str "Hello " in
  let ws := code "010" in
  let body := quoted "{'uid':'X','data':{'a':1}}" ++ [code "010"] in
  let c := code " " in
  let rest := str "world" in
  beforeTag (I.stage (scan Json.parse before)) = true /\
  opensBody ws = true /\
  includes (body ++ [tick; tick]) fence = false /\
  inspect Json.parse body = Accepted parsed_X /\
  c <> tick /\
  scan Json.parse
    (before ++ blockStart ++ [ws] ++ body ++ fence ++ c :: rest)
  = loop Json.parse
      (I.mk none []
         (I.displayContent (scan Json.parse before)
          ++ placeholder (length (I.completedBlocks (scan Json.parse before)))
          ++ [c])
         (I.completedBlocks (scan Json.parse before) ++ [parsed_X]) []
         (I.console (scan Json.parse before)))
      rest.
Proof.
  intros before ws body c rest.
  assert (H1 : beforeTag (I.stage (scan Json.parse before)) = true)
    by reflexivity.
  assert (H2 : opensBody ws = true) by reflexivity.
  assert (H3 : includes (body ++ [tick; tick]) fence = false)
    by (vm_compute; reflexivity).
  assert (H4 : inspect Json.parse body = Accepted parsed_X)
    by (vm_compute; reflexivity).
  assert (H5 : c <> tick) by discriminate.
  split_and!; [exact H1|exact H2|exact H3|exact H4|exact H5|].
  exact (accepted_block_in_text Json.parse before ws body parsed_X c rest
           H1 H2 H3 H4 H5).
Defined.


(** A cache that holds [other.json]; a load of [./definitions.json] is
    rejected, and an object is passed as the source. *)
Lemma call_touches_own_entry_only_witness :
  let w := {| DefinitionsLoader.definitionsCache :=
                {[ str "other.json" :=
                     {| DefinitionsLoader.data := 3%nat;
                        DefinitionsLoader.timestamp := 0%Z |} ]};
              DefinitionsLoader.loads := [] |} in
  let call :=
    DefinitionsLoader.loadDefinitionsWithCache nat w
      (DefinitionsLoader.uri definitions_json) None 10%Z
      (DefinitionsLoader.rejected (str "boom")) 11%Z in
  str "other.json" <> definitions_json /\
  call.1 = DefinitionsLoader.rejected (str "boom") /\
  DefinitionsLoader.definitionsCache call.2 !! str "other.json"
  = DefinitionsLoader.definitionsCache w !! str "other.json" /\
  DefinitionsLoader.definitionsCache call.2
  = DefinitionsLoader.definitionsCache w /\
  DefinitionsLoader.loadDefinitionsWithCache nat w
    (DefinitionsLoader.object 7%nat) None 10%Z
    (DefinitionsLoader.rejected (str "boom")) 11%Z
  = (DefinitionsLoader.resolved 7%nat, w).
Proof.
  intros w call.
  assert (H1 : str "other.json" <> definitions_json) by discriminate.
  assert (H2 : call.1 = DefinitionsLoader.rejected (str "boom"))
    by reflexivity.
  pose proof (call_touches_own_entry_only w
                (DefinitionsLoader.uri definitions_json) None 10%Z
                (DefinitionsLoader.rejected (str "boom")) 11%Z) as H.
  cbv zeta in H. destruct H as (Ha & Hb & _).
  pose proof (Ha definitions_json (str "other.json") eq_refl H1) as H3.
  destruct (Hb definitions_json (str "boom") eq_refl H2) as [_ H4].
  pose proof (call_touches_own_entry_only w
                (DefinitionsLoader.object 7%nat) None 10%Z
                (DefinitionsLoader.rejected (str "boom")) 11%Z) as H.
  cbv zeta in H. destruct H as (_ & _ & Hc).
  pose proof (Hc 7%nat eq_refl) as H5.
  split_and!; [exact H1|exact H2|exact H3|exact H4|exact H5].
Defined.

(** A cache that holds [./definitions.json] and [other.json]; the first
    is cleared and asked for again at once. *)
Lemma clearing_forces_a_reload_witness :
  let w := {| DefinitionsLoader.definitionsCache :=
                <[ definitions_json :=
                     {| DefinitionsLoader.data := 7%nat;
                        DefinitionsLoader.timestamp := 5%Z |} ]>
                  {[ str "other.json" :=
                       {| DefinitionsLoader.data := 3%nat;
                          DefinitionsLoader.timestamp := 0%Z |} ]};
              DefinitionsLoader.loads := [definitions_json] |} in
  let cleared :=
    DefinitionsLoader.clearDefinitionsCache nat w (Some definitions_json) in
  definitions_json <> [] /\
  str "other.json" <> definitions_json /\
  DefinitionsLoader.loads
    (DefinitionsLoader.loadDefinitionsWithCache nat cleared
       (DefinitionsLoader.uri definitions_json) None 6%Z
       (DefinitionsLoader.resolved 8%nat) 7%Z).2
  = [definitions_json; definitions_json] /\
  DefinitionsLoader.definitionsCache cleared !! str "other.json"
  = DefinitionsLoader.definitionsCache w !! str "other.json".
Proof.
  intros w cleared.
  assert (H1 : definitions_json <> []) by discriminate.
  assert (H2 : str "other.json" <> definitions_json) by discriminate.
  destruct (clearing_forces_a_reload w definitions_json None 6%Z
              (DefinitionsLoader.resolved 8%nat) 7%Z) as (H & _ & _).
  destruct (H H1) as [H3 H4].
  split_and!; [exact H1|exact H2|exact H3|exact (H4 _ H2)].
Defined.

(** A load stored at time 5 with the default [ttl]: a call four minutes
    later is answered from the cache, a call after five minutes loads
    again. *)
Lemma stored_entry_served_for_ttl_witness :
  let w := {| DefinitionsLoader.definitionsCache := ∅;
              DefinitionsLoader.loads := [] |} in
  let call1 :=
    DefinitionsLoader.loadDefinitionsWithCache nat w
      (DefinitionsLoader.uri definitions_json) None 0%Z
      (DefinitionsLoader.resolved 7%nat) 5%Z in
  let call2 :=
    DefinitionsLoader.loadDefinitionsWithCache nat call1.2
      (DefinitionsLoader.uri definitions_json) None 240000%Z
      (DefinitionsLoader.resolved 8%nat) 240001%Z in
  let call3 :=
    DefinitionsLoader.loadDefinitionsWithCache nat call1.2
      (DefinitionsLoader.uri definitions_json) None 300005%Z
      (DefinitionsLoader.resolved 8%nat) 300006%Z in
  DefinitionsLoader.fresh nat
    (DefinitionsLoader.definitionsCache w !! definitions_json) 0
    (default DefinitionsLoader.DEFAULT_CACHE_TTL None) = None /\
  (240000 - 5 < default DefinitionsLoader.DEFAULT_CACHE_TTL None)%Z /\
  (default DefinitionsLoader.DEFAULT_CACHE_TTL None <= 300005 - 5)%Z /\
  call2 = (DefinitionsLoader.resolved 7%nat, call1.2) /\
  DefinitionsLoader.loads call3.2
  = DefinitionsLoader.loads call1.2 ++ [definitions_json] /\
  call3.1 = DefinitionsLoader.resolved 8%nat.
Proof.
  intros w call1 call2 call3.
  assert (H1 : DefinitionsLoader.fresh nat
                 (DefinitionsLoader.definitionsCache w !! definitions_json) 0
                 (default DefinitionsLoader.DEFAULT_CACHE_TTL None) = None)
    by reflexivity.
  assert (H2 : (240000 - 5
                < default DefinitionsLoader.DEFAULT_CACHE_TTL None)%Z)
    by reflexivity.
  assert (H3 : (default DefinitionsLoader.DEFAULT_CACHE_TTL None
                <= 300005 - 5)%Z)
    by discriminate.
  pose proof (stored_entry_served_for_ttl w definitions_json None 0%Z 7%nat
                5%Z None 240000%Z (DefinitionsLoader.resolved 8%nat)
                240001%Z H1) as H.
  cbv zeta in H. destruct H as (H & _ & _). pose proof (H H2) as H4.
  pose proof (stored_entry_served_for_ttl w definitions_json None 0%Z 7%nat
                5%Z None 300005%Z (DefinitionsLoader.resolved 8%nat)
                300006%Z H1) as H'.
  cbv zeta in H'. destruct H' as (_ & H' & _). destruct (H' H3) as [H5 H6].
  split_and!; [exact H1|exact H2|exact H3|exact H4|exact H5|exact H6].
Defined.

(** The host registers [Card]; values are numbers, truthy when not
    zero. *)
Lemma registration_bypasses_import_witness :
  let truthy := fun n : nat => negb (Nat.eqb n 0) in
  let w := {| Loader.componentRegistry := ∅;
              Loader.console := [];
              Loader.imported := [] |} in
  let registered := Loader.registerComponent nat w (str "Card") 9%nat in
  truthy 9%nat = true /\
  str "Card" <> [] /\
  Loader.loadComponent nat truthy (fun _ => true) card_module registered
    (str "Card") (str "Card.tsx") None
  = (Loader.Returned (Some 9%nat), registered) /\
  Loader.getComponent nat
    (Loader.registerComponent nat
       (Loader.registerComponent nat w (str "Card") 4%nat) (str "Card") 9%nat)
    (str "Card")
  = Some 9%nat /\
  Loader.getComponent nat
    (Loader.clearRegistry nat registered (Some (str "Card"))) (str "Card")
  = None /\
  Loader.imported
    (Loader.loadComponent nat truthy (fun _ => true) card_module
       (Loader.clearRegistry nat registered (Some (str "Card")))
       (str "Card") (str "Card.tsx") None).2
  = Loader.imported w
    ++ [Loader.fullPathOf (str "Card.tsx")
          (default (str "/components/uicp") None)].
Proof.
  intros truthy w registered.
  assert (H1 : truthy 9%nat = true) by reflexivity.
  assert (H2 : str "Card" <> []) by discriminate.
  destruct (registration_bypasses_import truthy (fun _ => true) card_module
              w (str "Card") 9%nat 4%nat (str "Card.tsx") None H1 H2)
    as (H3 & H4 & H5 & H6).
  split_and!; [exact H1|exact H2|exact H3|exact H4|exact H5|exact H6].
Defined.

(** A registry with [Card] and [Button], from which [Card] is cleared. *)
Lemma registered_uids_and_clearing_witness :
  let w := {| Loader.componentRegistry :=
                <[str "Card" := 7%nat]> {[ str "Button" := 8%nat ]};
              Loader.console := [];
              Loader.imported := [] |} in
  let cleared := Loader.clearRegistry nat w (Some (str "Card")) in
  str "Card" <> [] /\
  str "Button" ∈ Loader.getRegisteredComponents nat cleared /\
  str "Card" ∉ Loader.getRegisteredComponents nat cleared.
Proof.
  intros w cleared.
  assert (H1 : str "Card" <> []) by discriminate.
  destruct (registered_uids_and_clearing w (str "Card"))
    as (Hmem & _ & Hclear & _ & _).
  pose proof (Hclear H1) as H.
  split_and!; [exact H1| |].
  - apply H. split; [discriminate|]. apply Hmem. exists 8%nat.
    unfold w. cbn [Loader.componentRegistry].
    rewrite lookup_insert_ne by discriminate. apply lookup_singleton_eq.
  - intros Hin. apply H in Hin as [Hne _]. by apply Hne.
Defined.

(** A registry that holds the truthy [8] under [Button]. *)
Lemma registry_stays_truthy_witness :
  let truthy := fun n : nat => negb (Nat.eqb n 0) in
  let w := {| Loader.componentRegistry := {[ str "Button" := 8%nat ]};
              Loader.console := [];
              Loader.imported := [] |} in
  Loader.registryTruthy nat truthy w /\
  truthy 7%nat = true /\
  Loader.registryTruthy nat truthy
    (Loader.registerComponent nat w (str "Card") 7%nat) /\
  Loader.registryTruthy nat truthy
    (Loader.clearRegistry nat w (Some (str "Button"))) /\
  Loader.registryTruthy nat truthy
    (Loader.loadComponent nat truthy (fun _ => true) card_module w
       (str "Card") (str "Card.tsx") None).2.
Proof.
  intros truthy w.
  assert (H1 : Loader.registryTruthy nat truthy w).
  { intros uid v H. unfold w in H. cbn [Loader.componentRegistry] in H.
    apply lookup_singleton_Some in H as [_ <-]. reflexivity. }
  assert (H2 : truthy 7%nat = true) by reflexivity.
  destruct (registry_stays_truthy truthy (fun _ => true) card_module w
              (str "Card") 7%nat (str "Card.tsx") None
              (Some (str "Button")) H1)
    as (H3 & H4 & H5).
  split_and!; [exact H1|exact H2|exact (H3 H2)|exact H4|exact H5].
Defined.

(** The import of [Card.tsx] is rejected at the first call and resolves
    at the second, which returns and registers the component. *)
Lemma failed_load_is_retried_witness :
  let truthy := fun n : nat => negb (Nat.eqb n 0) in
  let offline := fun _ : jstring =>
    @inr (Loader.Module_ nat) jstring (str "offline") in
  let w := {| Loader.componentRegistry := ∅;
              Loader.console := [];
              Loader.imported := [] |} in
  let failed :=
    Loader.loadComponent nat truthy (fun _ => true) offline w
      (str "Card") (str "Card.tsx") None in
  let again :=
    Loader.loadComponent nat truthy (fun _ => true) card_module failed.2
      (str "Card") (str "Card.tsx") None in
  let direct :=
    Loader.loadComponent nat truthy (fun _ => true) card_module w
      (str "Card") (str "Card.tsx") None in
  Loader.componentRegistry w !! str "Card" = None /\
  failed.1 = Loader.Returned None /\
  direct.1 = Loader.Returned (Some 7%nat) /\
  Loader.imported again.2
  = Loader.imported w
    ++ [Loader.fullPathOf (str "Card.tsx")
          (default (str "/components/uicp") None);
        Loader.fullPathOf (str "Card.tsx")
          (default (str "/components/uicp") None)] /\
  again.1 = direct.1 /\
  Loader.componentRegistry again.2 = Loader.componentRegistry direct.2.
Proof.
  intros truthy offline w failed again direct.
  assert (H1 : Loader.componentRegistry w !! str "Card" = None)
    by apply lookup_empty.
  assert (H2 : failed.1 = Loader.Returned None) by reflexivity.
  assert (H3 : direct.1 = Loader.Returned (Some 7%nat)) by reflexivity.
  pose proof (failed_load_is_retried truthy (fun _ => true) offline w
                (str "Card") (str "Card.tsx") None card_module H1 H2) as H.
  cbv zeta in H. destruct H as (_ & _ & _ & H4 & H5 & H6 & _).
  split_and!; [exact H1|exact H2|exact H3|exact H4|exact H5|exact H6].
Defined.

(** [Card.tsx] has the default export [7]. *)
Lemma first_truthy_export_is_loaded_witness :
  let truthy := fun n : nat => negb (Nat.eqb n 0) in
  let w := {| Loader.componentRegistry := ∅;
              Loader.console := [];
              Loader.imported := [] |} in
  let call :=
    Loader.loadComponent nat truthy (fun _ => true) card_module w
      (str "Card") (str "Card.tsx") None in
  Loader.componentRegistry w !! str "Card" = None /\
  card_module
    (Loader.fullPathOf (str "Card.tsx") (default (str "/components/uicp") None))
  = inl [(str "default", 7%nat)] /\
  call.1 = Loader.Returned (Some 7%nat) /\
  Loader.componentRegistry call.2
  = <[str "Card" := 7%nat]> (Loader.componentRegistry w) /\
  Loader.console call.2 = Loader.console w.
Proof.
  intros truthy w call.
  assert (H1 : Loader.componentRegistry w !! str "Card" = None)
    by apply lookup_empty.
  assert (H2 : card_module
                 (Loader.fullPathOf (str "Card.tsx")
                    (default (str "/components/uicp") None))
               = inl [(str "default", 7%nat)]) by reflexivity.
  pose proof (first_truthy_export_is_loaded truthy (fun _ => true)
                card_module w (str "Card") (str "Card.tsx") None
                [(str "default", 7%nat)] H1 H2) as H.
  split_and!; [exact H1|exact H2|exact (proj1 H)|exact (proj1 (proj2 H))
              |exact (proj2 (proj2 H))].
Defined.

(** [cards/Card.v2.tsx] and [cards/Card]. *)
Lemma export_named_like_the_file_witness :
  includes (str "Card.v2") (str "/") = false /\
  str "tsx" <> [] /\
  forallb Loader.isWord (str "tsx") = true /\
  Loader.stripExtension
    (Loader.lastSegment
       (str "cards" ++ str "/" ++ str "Card.v2" ++ str "." ++ str "tsx") [])
  = str "Card.v2" /\
  includes (str "Card") (str "/") = false /\
  includes (str "Card") (str ".") = false /\
  Loader.stripExtension
    (Loader.lastSegment (str "cards" ++ str "/" ++ str "Card") [])
  = str "Card".
Proof.
  assert (H1 : includes (str "Card.v2") (str "/") = false) by reflexivity.
  assert (H2 : str "tsx" <> []) by discriminate.
  assert (H3 : forallb Loader.isWord (str "tsx") = true) by reflexivity.
  assert (H5 : includes (str "Card") (str "/") = false) by reflexivity.
  assert (H6 : includes (str "Card") (str ".") = false) by reflexivity.
  destruct (export_named_like_the_file (str "cards") (str "Card.v2")
              (str "tsx") H1) as [H _].
  destruct (H H2 H3) as [H4 _].
  destruct (export_named_like_the_file (str "cards") (str "Card") [] H5)
    as [_ H'].
  split_and!; [exact H1|exact H2|exact H3|exact H4|exact H5|exact H6
              |exact (H' H6)].
Defined.

(** [Hello ], the block of [block_X], [ world ] and a backtick, rendered
    while streaming with the definitions loaded; a block renders to its
    parsed body and a text to itself. *)
Lemma rendering_follows_the_text_witness :
  let text := str "Hello " ++ block_X ++ str " world `" in
  let gs := [Plain (str "Hello ");
             Fenced (str "```uicp" ++ [code "010"])
               (quoted "{'uid':'X','data':{'a':1}}" ++ [code "010"]);
             Plain (str " world ")] in
  let r := parseStreamingContent Json.parse text in
  replay Json.parse gs = (completedBlocks r, displayContent r) /\
  Forall ReactComponents.underscoreFree gs /\
  ReactComponents.renderedContent nat JsValue (JsValue + jstring)
    (fun block _ _ => Some block) inr inl (inr (str "spinner"))
    r (Some 1%nat) true
  = [ReactComponents.fragment (str "text-0") (inr (str "Hello "));
     ReactComponents.fragment (str "component-0") (inl parsed_X);
     ReactComponents.fragment (str "text-2") (inr (str " world "));
     ReactComponents.fragment (str "loading-spinner") (inr (str "spinner"))].
Proof.
  intros text gs r.
  assert (H1 : replay Json.parse gs = (completedBlocks r, displayContent r))
    by (vm_compute; reflexivity).
  assert (H2 : Forall ReactComponents.underscoreFree gs).
  { repeat constructor; apply (bool_decide_unpack _); vm_compute; exact I. }
  destruct (rendering_follows_the_text nat JsValue (JsValue + jstring)
              (fun block _ _ => Some block) inr inl (inr (str "spinner"))
              Json.parse text (Some 1%nat) true) as [_ H].
  split_and!; [exact H1|exact H2|].
  etrans; [exact (H gs H1 H2)|]. vm_compute. reflexivity.
Defined.

(** The same rendering has four distinct keys. *)
Lemma rendered_keys_distinct_witness :
  let text := str "Hello " ++ block_X ++ str " world `" in
  let gs := [Plain (str "Hello ");
             Fenced (str "```uicp" ++ [code "010"])
               (quoted "{'uid':'X','data':{'a':1}}" ++ [code "010"]);
             Plain (str " world ")] in
  let r := parseStreamingContent Json.parse text in
  replay Json.parse gs = (completedBlocks r, displayContent r) /\
  Forall ReactComponents.underscoreFree gs /\
  NoDup (ReactComponents.key <$>
           ReactComponents.renderedContent nat JsValue (JsValue + jstring)
             (fun block _ _ => Some block) inr inl (inr (str "spinner"))
             r (Some 1%nat) true).
Proof.
  intros text gs r.
  assert (H1 : replay Json.parse gs = (completedBlocks r, displayContent r))
    by (vm_compute; reflexivity).
  assert (H2 : Forall ReactComponents.underscoreFree gs).
  { repeat constructor; apply (bool_decide_unpack _); vm_compute; exact I. }
  split_and!; [exact H1|exact H2|].
  exact (rendered_keys_distinct nat JsValue (JsValue + jstring)
           (fun block _ _ => Some block) inr inl (inr (str "spinner"))
           Json.parse text gs (Some 1%nat) true H1 H2).
Defined.

End FurtherScenarios.
